(** * ShARC: GDB instance ingestion, shortest paths and the guardrail

    A shallow embedding of [parse_gdb.py], [build_instance_gdb.py] and
    [conversionguardrail.py], and the properties of the specification
    checked against it.

    Conventions of the embedding.
    - Python exceptions are values of [exn]; a fallible computation
      returns a [result].
    - Python list indexing with an [int] follows [py_index]: a negative
      index counts from the end, anything else outside the list raises
      [IndexError].
    - The floats of the distance matrix are the values [float(w)] of
      integer weights, their sums, and [math.inf]; they are modelled by
      [dnum], an integer or [Inf], with exact addition and comparison
      (which is what IEEE arithmetic does on integers below 2^53).
    - The floats of the guardrail's arc matrices are modelled by
      rationals with exact arithmetic.
    - [int] of a string of digits has no bound on the number of digits
      (the interpreter's optional limit is left out). *)

From Stdlib Require Import ZArith QArith List Bool Lia String Ascii.
From stdpp Require Import base list sets.
Import ListNotations.

(* ================================================================== *)
(** ** Python values shared by the three modules *)

Module Py.

(** The exceptions the modelled code can raise. *)
Inductive exn : Type :=
| IndexError
| TypeError
| KeyError
| ValueError_int                     (* int() of a non-numeric str *)
| ValueError_unreachable (depot : Z) (unreachable : list Z)
| ValueError_empty_max               (* np.max of a zero-size array *)
| ValueError_sample                  (* np.random.choice: sample larger than population *)
| NetworkXPointlessConcept.          (* connectivity of the null graph *)

Inductive result (A : Type) : Type :=
| Ok (a : A)
| Raise (e : exn).
Arguments Ok {A} a.
Arguments Raise {A} e.

Definition bind {A B} (c : result A) (f : A -> result B) : result B :=
  match c with
  | Ok a => f a
  | Raise e => Raise e
  end.

(** [l[i]] resolves the index [i] against a list of length [len]. *)
Definition py_index (len : nat) (i : Z) : option nat :=
  if ((0 <=? i) && (i <? Z.of_nat len))%Z then Some (Z.to_nat i)
  else if ((- Z.of_nat len <=? i) && (i <? 0))%Z then Some (Z.to_nat (i + Z.of_nat len))
  else None.

(** [l[i]] as an expression. *)
Definition getitem {A} (l : list A) (i : Z) : result A :=
  match py_index (length l) i with
  | Some k => match l !! k with Some x => Ok x | None => Raise IndexError end
  | None => Raise IndexError
  end.

(** [l[i] = x] as a statement, returning the updated list. *)
Definition setitem {A} (l : list A) (i : Z) (x : A) : result (list A) :=
  match py_index (length l) i with
  | Some k => Ok (<[k := x]> l)
  | None => Raise IndexError
  end.

(** [range(1, n+1)] *)
Definition range1 (n : Z) : list nat := seq 1 (Z.to_nat n).

End Py.

Import Py.

Notation "'let*' x ':=' c 'in' k" := (Py.bind c (fun x => k))
  (at level 10, x name, c at level 100, k at level 200).

(* ================================================================== *)
(** ** parse_gdb.py: the text format parser

    A [str] is a list of characters; a character is a code point below
    256 (the format's own alphabet: ASCII and the accented capitals of
    [HEADER_RE]).  On these, [\s] and [str.strip] agree on [is_space],
    [\d] is [0-9], and case folding only concerns ASCII letters. *)

Module ParseGdb.

Abbreviation str := (list ascii).

Definition lit (s : string) : str := list_ascii_of_string s.

Definition code (c : ascii) : nat := nat_of_ascii c.

Definition is_space (c : ascii) : bool :=
  let n := code c in
  ((9 <=? n) && (n <=? 13)) || ((28 <=? n) && (n <=? 32)) || (n =? 133) || (n =? 160).

Definition is_digit (c : ascii) : bool :=
  let n := code c in (48 <=? n) && (n <=? 57).

Definition is_upper (c : ascii) : bool :=
  let n := code c in (65 <=? n) && (n <=? 90).

Definition is_lower (c : ascii) : bool :=
  let n := code c in (97 <=? n) && (n <=? 122).

(** The character class [[A-Z_ÁÉÍÓÚÜÑa-z0-9 ]] of [HEADER_RE]. *)
Definition is_keychar (c : ascii) : bool :=
  let n := code c in
  is_upper c || is_lower c || is_digit c || (n =? 95) || (n =? 32) ||
  (n =? 193) || (n =? 201) || (n =? 205) || (n =? 211) || (n =? 218) ||
  (n =? 220) || (n =? 209).

Definition upper_char (c : ascii) : ascii :=
  if is_lower c then ascii_of_nat (code c - 32) else c.

(** [s.upper()] *)
Definition upper (s : str) : str := map upper_char s.

Fixpoint str_eqb (a b : str) : bool :=
  match a, b with
  | [], [] => true
  | x :: a', y :: b' => Ascii.eqb x y && str_eqb a' b'
  | _, _ => false
  end.

(** [s.startswith(p)] *)
Fixpoint startswith (s p : str) : bool :=
  match p, s with
  | [], _ => true
  | y :: p', x :: s' => Ascii.eqb x y && startswith s' p'
  | _ :: _, [] => false
  end.

Fixpoint drop_while (f : ascii -> bool) (s : str) : str :=
  match s with
  | [] => []
  | c :: s' => if f c then drop_while f s' else s
  end.

(** The longest prefix of characters satisfying [f], and the rest. *)
Fixpoint span (f : ascii -> bool) (s : str) : str * str :=
  match s with
  | [] => ([], [])
  | c :: s' => if f c then let '(a, b) := span f s' in (c :: a, b) else ([], s)
  end.

(** [s.lstrip()], [s.rstrip()], [s.strip()] *)
Definition lstrip (s : str) : str := drop_while is_space s.
Definition rstrip (s : str) : str := rev (drop_while is_space (rev s)).
Definition strip (s : str) : str := rstrip (lstrip s).

(** [s.split(tok, 1)[0]]: the text before the first occurrence of
    [tok], all of [s] when there is none. *)
Fixpoint before (tok s : str) : str :=
  match s with
  | [] => []
  | c :: s' => if startswith s tok then [] else c :: before tok s'
  end.

Definition COMMENT_TOKENS : list str := [lit "//"; lit "#"; lit "%"; lit ";"].

Definition is_newline (c : ascii) : bool := code c =? 10.

(** [if tok in s: s = s.split(tok, 1)[0]] for each token in turn,
    then [rstrip("\n")]. *)
Definition strip_comment (line : str) : str :=
  let s := foldl (fun s tok => before tok s) line COMMENT_TOKENS in
  rev (drop_while is_newline (rev s)).

(** [k.strip().upper().replace(" ", "_")] *)
Definition normalize_key (k : str) : str :=
  map (fun c => if code c =? 32 then ascii_of_nat 95 else c) (upper (strip k)).

(** A header value: an [int] or a [str]. *)
Inductive value : Type :=
| VInt (z : Z)
| VStr (s : str).

Definition digit_val (c : ascii) : Z := Z.of_nat (code c - 48).

(** [int(s)] for a string of decimal digits. *)
Definition int_of_digits (s : str) : Z :=
  foldl (fun acc c => (10 * acc + digit_val c)%Z) 0%Z s.

Definition all_digits (s : str) : bool :=
  match s with
  | [] => false
  | _ => forallb is_digit s
  end.

(** [v = v.strip(); int(v) if re.fullmatch(r"-?\d+", v) else v] *)
Definition coerce_value (v : str) : value :=
  let v := strip v in
  match v with
  | c :: ds =>
      if (code c =? 45) && all_digits ds then VInt (- int_of_digits ds)
      else if all_digits v then VInt (int_of_digits v)
      else VStr v
  | [] => VStr v
  end.

(** [re.search]: the match at the leftmost position that has one. *)
Fixpoint search {A} (m : str -> option A) (s : str) : option A :=
  match m s with
  | Some r => Some r
  | None => match s with
            | [] => None
            | _ :: s' => search m s'
            end
  end.

(** [PAIR_RE = \(\s*(\d+)\s*,\s*(\d+)\s*\)] anchored at the head of [s];
    the two groups.  Spaces, digits and the punctuation are disjoint
    classes, so the greedy match is the only one. *)
Definition pair_at (s : str) : option (str * str) :=
  match s with
  | c :: s1 =>
      if code c =? 40 then
        let '(d1, s2) := span is_digit (lstrip s1) in
        match d1, lstrip s2 with
        | _ :: _, c2 :: s3 =>
            if code c2 =? 44 then
              let '(d2, s4) := span is_digit (lstrip s3) in
              match d2, lstrip s4 with
              | _ :: _, c3 :: _ => if code c3 =? 41 then Some (d1, d2) else None
              | _, _ => None
              end
            else None
        | _, _ => None
        end
      else None
  | [] => None
  end.

(** [kw\s*(\d+)] with [re.IGNORECASE], anchored at the head of [s];
    [kw] is given in upper case. *)
Definition keyword_at (kw : str) (s : str) : option str :=
  if startswith (upper (firstn (length kw) s)) kw then
    let '(ds, _) := span is_digit (lstrip (skipn (length kw) s)) in
    match ds with
    | _ :: _ => Some ds
    | [] => None
    end
  else None.

Definition PAIR_RE_search (line : str) : option (str * str) := search pair_at line.
Definition COST_RE_search (line : str) : option str := search (keyword_at (lit "COSTE")) line.
Definition DEM_RE_search (line : str) : option str := search (keyword_at (lit "DEMANDA")) line.

(** [HEADER_RE = ^\s*([A-Z_ÁÉÍÓÚÜÑa-z0-9 ]+)\s*:\s*(.*?)\s*$] matched
    against a line (which holds no newline): the two groups.  The
    colon of a match is the first colon of the line.  With [w] the
    leading white space: the key is the longest run of key characters
    after [w], followed by white space only up to the colon; when the
    colon follows [w] at once, the key can only be one space given
    back by [w].  The value group is the rest of the line without the
    white space around it. *)
Definition HEADER_RE_match (line : str) : option (str * str) :=
  let '(w, rest) := span is_space line in
  let '(k, rest2) := span is_keychar rest in
  match k with
  | _ :: _ =>
      match lstrip rest2 with
      | c :: v => if code c =? 58 then Some (k, strip v) else None
      | [] => None
      end
  | [] =>
      match rest with
      | c :: v =>
          if (code c =? 58) && existsb (fun x => code x =? 32) w
          then Some ([ascii_of_nat 32], strip v) else None
      | [] => None
      end
  end.

(** [str.splitlines()]: the line boundaries below 256 are
    LF, VT, FF, CR, CR LF, FS, GS, RS and NEL. *)
Definition is_linebreak (c : ascii) : bool :=
  let n := code c in
  ((10 <=? n) && (n <=? 13)) || ((28 <=? n) && (n <=? 30)) || (n =? 133).

Fixpoint splitlines_from (cur : str) (s : str) : list str :=
  match s with
  | [] => match cur with [] => [] | _ => [rev cur] end
  | c :: rest =>
      if code c =? 13 then
        match rest with
        | c2 :: rest2 =>
            if code c2 =? 10 then rev cur :: splitlines_from [] rest2
            else rev cur :: splitlines_from [] rest
        | [] => rev cur :: splitlines_from [] rest
        end
      else if is_linebreak c then rev cur :: splitlines_from [] rest
      else splitlines_from (c :: cur) rest
  end.

Definition splitlines (s : str) : list str := splitlines_from [] s.

(** An element of [required_edges]. *)
Record edge : Type := {
  u : Z; v : Z; cost : Z; demand : Z; required : bool
}.

(** [meta], a [dict] from normalized keys to values, in insertion order. *)
Abbreviation dict := (list (str * value)).

(** [meta[key] = val] *)
Fixpoint dict_set (m : dict) (key : str) (val : value) : dict :=
  match m with
  | [] => [(key, val)]
  | (k, x) :: m' => if str_eqb k key then (k, val) :: m' else (k, x) :: dict_set m' key val
  end.

(** [meta.get(key)] *)
Fixpoint dict_get (m : dict) (key : str) : option value :=
  match m with
  | [] => None
  | (k, x) :: m' => if str_eqb k key then Some x else dict_get m' key
  end.

(** The variables of the scanning loop. *)
Record scan : Type := {
  s_meta : dict;
  s_required_edges : list edge;
  in_req_list : bool;
  seen_req_header : bool
}.

(** The code after [# header]: record the line if it is a header. *)
Definition header_step (st : scan) (line : str) : scan :=
  match HEADER_RE_match line with
  | Some (k, x) =>
      {| s_meta := dict_set (s_meta st) (normalize_key k) (coerce_value x);
         s_required_edges := s_required_edges st;
         in_req_list := in_req_list st;
         seen_req_header := seen_req_header st |}
  | None => st
  end.

Definition is_section_start (line : str) : bool :=
  startswith (upper line) (lit "LISTA_ARISTAS_REQ").

(** The [strip_comment(raw).strip()] of a raw line. *)
Definition clean (raw : str) : str := strip (strip_comment raw).

(** One iteration of the loop over the lines. *)
Definition step (st : scan) (raw : str) : scan :=
  let line := clean raw in
  match line with
  | [] => st
  | _ :: _ =>
      if is_section_start line then
        {| s_meta := s_meta st; s_required_edges := s_required_edges st;
           in_req_list := true; seen_req_header := true |}
      else if in_req_list st then
        match PAIR_RE_search line, COST_RE_search line, DEM_RE_search line with
        | Some (gu, gv), Some gc, Some gd =>
            {| s_meta := s_meta st;
               s_required_edges :=
                 s_required_edges st ++
                 [{| u := int_of_digits gu; v := int_of_digits gv;
                     cost := int_of_digits gc; demand := int_of_digits gd;
                     required := true |}];
               in_req_list := true; seen_req_header := seen_req_header st |}
        | _, _, _ =>
            match HEADER_RE_match line with
            | Some _ =>
                header_step {| s_meta := s_meta st;
                               s_required_edges := s_required_edges st;
                               in_req_list := false;
                               seen_req_header := seen_req_header st |} line
            | None => st
            end
        end
      else header_step st line
  end.

Definition scan0 : scan :=
  {| s_meta := []; s_required_edges := []; in_req_list := false; seen_req_header := false |}.

(** The [canonical] view of the headers. *)
Record canonical : Type := {
  name : option value;
  comment : option value;
  n_vertices : option value;
  n_req : option value;
  n_noreq : option value;
  n_vehicles : option value;
  capacity : option value;
  req_total_cost : option value;
  depot : option value;
  cost_type : option value
}.

(** The three warning messages, with the values they print. *)
Inductive warning : Type :=
| NoHeaders
| NoSectionHeader
| CountMismatch (declared : value) (parsed : nat).

(** [canonical["n_req"] != len(required_edges)] *)
Definition differs (x : value) (len : nat) : bool :=
  match x with
  | VInt z => negb (z =? Z.of_nat len)%Z
  | VStr _ => true
  end.

Record parsed : Type := {
  meta_raw : dict;
  meta : canonical;
  required_edges : list edge;
  warnings : list warning
}.

(** [parse_gdb_dat], from the text that [path.read_text] returned. *)
Definition parse_gdb_dat (text : str) : parsed :=
  let st := foldl step scan0 (splitlines text) in
  let m := s_meta st in
  let canon :=
    {| name := dict_get m (lit "NOMBRE");
       comment := dict_get m (lit "COMENTARIO");
       n_vertices := dict_get m (lit "VERTICES");
       n_req := dict_get m (lit "ARISTAS_REQ");
       n_noreq := dict_get m (lit "ARISTAS_NOREQ");
       n_vehicles := dict_get m (lit "VEHICULOS");
       capacity := dict_get m (lit "CAPACIDAD");
       req_total_cost := dict_get m (lit "COSTE_TOTAL_REQ");
       depot := dict_get m (lit "DEPOSITO");
       cost_type := dict_get m (lit "TIPO_COSTES_ARISTAS") |} in
  let edges := s_required_edges st in
  let w1 := match m with [] => [NoHeaders] | _ => [] end in
  let w2 := if seen_req_header st then [] else [NoSectionHeader] in
  let w3 := match n_req canon with
            | Some x => if differs x (length edges) then [CountMismatch x (length edges)] else []
            | None => []
            end in
  {| meta_raw := m; meta := canon; required_edges := edges;
     warnings := w1 ++ w2 ++ w3 |}.

(** The section marker occurs in the text: some line, once its
    comment and surrounding white space are removed, starts with
    [LISTA_ARISTAS_REQ] in any letter case. *)
Definition has_section_marker (text : str) : bool :=
  existsb (fun raw => is_section_start (clean raw)) (splitlines text).

(** What the parser guarantees of an element of [required_edges]. *)
Definition edge_from_digits (e : edge) : Prop :=
  (0 <= u e)%Z /\ (0 <= v e)%Z /\ (0 <= cost e)%Z /\ (0 <= demand e)%Z /\
  required e = true.

End ParseGdb.

(* ================================================================== *)
(** ** build_instance_gdb.py: the shortest-path engine *)

Module Fw.

(** A float of the distance matrix: an integer-valued float or [math.inf]. *)
Inductive dnum : Type :=
| Fin (z : Z)
| Inf.

(** [x + y] *)
Definition dadd (x y : dnum) : dnum :=
  match x, y with
  | Fin a, Fin b => Fin (a + b)
  | _, _ => Inf
  end.

(** [x < y] *)
Definition dlt (x y : dnum) : bool :=
  match x, y with
  | Fin a, Fin b => (a <? b)%Z
  | Fin _, Inf => true
  | Inf, _ => false
  end.

(** [x == math.inf] *)
Definition is_inf (x : dnum) : bool :=
  match x with Inf => true | Fin _ => false end.

(** Python's [min(x, y)]: the first argument unless the second is smaller. *)
Definition dmin (x y : dnum) : dnum := if dlt y x then y else x.

(** [x <= y] as a proposition, for the statements. *)
Definition dle (x y : dnum) : Prop :=
  match x, y with
  | Fin a, Fin b => (a <= b)%Z
  | _, Inf => True
  | Inf, Fin _ => False
  end.

Abbreviation matrix := (list (list dnum)).

(** [d[i][j]] for indices known to be in range (the loops over
    [range(1, n+1)]); [Inf] stands in outside the matrix, where the
    code never reads. *)
Definition get (d : matrix) (i j : nat) : dnum :=
  match d !! i with
  | Some r => match r !! j with Some x => x | None => Inf end
  | None => Inf
  end.

(** [d[i][j] = x] for natural indices; the row object is updated in place. *)
Definition set (d : matrix) (i j : nat) (x : dnum) : matrix :=
  match d !! i with
  | Some r => <[i := <[j := x]> r]> d
  | None => d
  end.

(** [dist = [[math.inf]*(n+1) for _ in range(n+1)]] *)
Definition init_inf (n : Z) : matrix :=
  replicate (Z.to_nat (n + 1)) (replicate (Z.to_nat (n + 1)) Inf).

(** [for i in range(1, n+1): dist[i][i] = 0.0] *)
Definition init_diag (n : Z) (d : matrix) : matrix :=
  foldl (fun d i => set d i i (Fin 0)) d (range1 n).

(** One iteration of [for u,v,w in edges]:
    [dist[u][v] = min(dist[u][v], float(w))] then
    [dist[v][u] = min(dist[v][u], float(w))]. *)
Definition add_edge (d : matrix) (e : Z * Z * Z) : result matrix :=
  let '(u, v, w) := e in
  let* ru := getitem d u in
  let* duv := getitem ru v in
  let* ru' := setitem ru v (dmin duv (Fin w)) in
  let* d1 := setitem d u ru' in
  let* rv := getitem d1 v in
  let* dvu := getitem rv u in
  let* rv' := setitem rv u (dmin dvu (Fin w)) in
  setitem d1 v rv'.

Fixpoint add_edges (d : matrix) (edges : list (Z * Z * Z)) : result matrix :=
  match edges with
  | [] => Ok d
  | e :: rest => let* d' := add_edge d e in add_edges d' rest
  end.

(** The body of the [j] loop: [alt = dik + dk[j]; if alt < di[j]: di[j] = alt].
    [dk] and [di] are aliases of rows of [dist], so both are read
    from the current matrix. *)
Definition relax (k i : nat) (dik : dnum) (d : matrix) (j : nat) : matrix :=
  let alt := dadd dik (get d k j) in
  if dlt alt (get d i j) then set d i j alt else d.

(** The body of the [i] loop, with the skip on an infinite [dik]. *)
Definition row_pass (n : Z) (k : nat) (d : matrix) (i : nat) : matrix :=
  let dik := get d i k in
  if is_inf dik then d
  else foldl (relax k i dik) d (range1 n).

(** The body of the [k] loop. *)
Definition phase (n : Z) (d : matrix) (k : nat) : matrix :=
  foldl (row_pass n k) d (range1 n).

Definition floyd_warshall (n : Z) (edges : list (Z * Z * Z)) : result matrix :=
  let* d0 := add_edges (init_diag n (init_inf n)) edges in
  Ok (foldl (phase n) d0 (range1 n)).

(** The reference algorithm, following the specification's words:
    for [k], [i], [j] in turn, always
    [dist[i][j] <- min(dist[i][j], dist[i][k] + dist[k][j])],
    every operand read from the current matrix. *)
Definition ref_relax (k i : nat) (d : matrix) (j : nat) : matrix :=
  set d i j (dmin (get d i j) (dadd (get d i k) (get d k j))).

Definition ref_row_pass (n : Z) (k : nat) (d : matrix) (i : nat) : matrix :=
  foldl (ref_relax k i) d (range1 n).

Definition ref_phase (n : Z) (d : matrix) (k : nat) : matrix :=
  foldl (ref_row_pass n k) d (range1 n).

Definition ref_floyd_warshall (n : Z) (edges : list (Z * Z * Z)) : result matrix :=
  let* d0 := add_edges (init_diag n (init_inf n)) edges in
  Ok (foldl (ref_phase n) d0 (range1 n)).

(** *** Vocabulary of the statements and of the proofs *)

(** A square matrix of side [m]. *)
Definition square (m : nat) (d : matrix) : Prop :=
  length d = m /\ Forall (fun r => length r = m) d.

(** The invariant of the outer loop on non-negative weights. *)
Record fw_inv (n : Z) (d : matrix) : Prop := {
  inv_square : square (Z.to_nat (n + 1)) d;
  inv_nonneg : forall a b, dle (Fin 0) (get d a b);
  inv_diag : forall a, a ∈ range1 n -> get d a a = Fin 0;
  inv_sym : forall a b, get d a b = get d b a
}.


(** The two assignments of one edge, on resolved indices. *)
Definition put_edge (d : matrix) (a b : nat) (w : Z) : matrix :=
  let d1 := set d a b (dmin (get d a b) (Fin w)) in
  set d1 b a (dmin (get d1 b a) (Fin w)).

(** An edge touches vertex [x] when one of its endpoints indexes
    row [x] of the matrix. *)
Definition touches (n : Z) (x : nat) (e : Z * Z * Z) : Prop :=
  py_index (Z.to_nat (n + 1)) (fst (fst e)) = Some x \/
  py_index (Z.to_nat (n + 1)) (snd (fst e)) = Some x.


(** The weights are non-negative, and every
    endpoint indexes the matrix (so that no [IndexError] is raised). *)
Definition nonneg_weights (edges : list (Z * Z * Z)) : Prop :=
  Forall (fun e => (0 <= snd e)%Z) edges.


End Fw.

Import Fw.

(* ================================================================== *)
(** ** build_instance_gdb.py: the bundle assembler *)

Module Build.

Import ParseGdb.

(** Decimal digits with single underscores between them, as [int]
    accepts them. *)
Fixpoint digits_us (s : str) (after_digit : bool) (acc : Z) : option Z :=
  match s with
  | [] => if after_digit then Some acc else None
  | c :: s' =>
      if is_digit c then digits_us s' true (10 * acc + digit_val c)%Z
      else if (code c =? 95) && after_digit then digits_us s' false acc
      else None
  end.

(** The white space that [int] skips around the digits (the control
    characters 28 to 31 are not part of it). *)
Definition is_int_space (c : ascii) : bool :=
  let n := code c in
  ((9 <=? n) && (n <=? 13)) || (n =? 32) || (n =? 133) || (n =? 160).

(** [int(s)] for a [str]: white space around, an optional sign,
    decimal digits; [None] stands for [ValueError]. *)
Definition int_of_str (s : str) : option Z :=
  match rev (drop_while is_int_space (rev (drop_while is_int_space s))) with
  | c :: ds =>
      if code c =? 45 then option_map Z.opp (digits_us ds false 0%Z)
      else if code c =? 43 then digits_us ds false 0%Z
      else digits_us (c :: ds) false 0%Z
  | [] => None
  end.

(** [int(x)] for a value of the canonical view. *)
Definition py_int (x : option value) : result Z :=
  match x with
  | None => Raise TypeError
  | Some (VInt z) => Ok z
  | Some (VStr s) =>
      match int_of_str s with
      | Some z => Ok z
      | None => Raise ValueError_int
      end
  end.

Record bundle : Type := {
  b_name : option value;
  b_n_vertices : Z;
  b_depot : Z;
  b_capacity : Z;
  n_tasks : nat;
  tasks : list edge;
  dist : matrix
}.

(** [[i for i in range(1, n+1) if dist[depot][i] == math.inf]] over
    the vertices [vs]; [dist[depot]] is evaluated at each vertex. *)
Fixpoint unreachable_among (d : matrix) (depot : Z) (vs : list nat) : result (list nat) :=
  match vs with
  | [] => Ok []
  | i :: rest =>
      let* row := getitem d depot in
      let* x := getitem row (Z.of_nat i) in
      let* tl := unreachable_among d depot rest in
      Ok (if is_inf x then i :: tl else tl)
  end.

(** [graph_edges = [(t["u"], t["v"], t["cost"]) for t in tasks]] *)
Definition graph_edges (ts : list edge) : list (Z * Z * Z) :=
  map (fun t => (u t, v t, cost t)) ts.

Definition build_carp_instance (p : parsed) : result bundle :=
  let m := meta p in
  let ts := required_edges p in
  let* n := py_int (n_vertices m) in
  let* dep := py_int (depot m) in
  let* cap := py_int (capacity m) in
  let* d := floyd_warshall n (graph_edges ts) in
  let* unreachable := unreachable_among d dep (range1 n) in
  match unreachable with
  | _ :: _ => Raise (ValueError_unreachable dep (map Z.of_nat unreachable))
  | [] =>
      Ok {| b_name := name m; b_n_vertices := n; b_depot := dep; b_capacity := cap;
            n_tasks := length ts; tasks := ts; dist := d |}
  end.

(** *** Vocabulary of the statements *)





End Build.

(* ================================================================== *)
(** ** conversionguardrail.py: the validation guardrail

    The entries of the arc matrices are rationals.  The functions of
    networkx and numpy are modelled by what they document:
    [is_strongly_connected] raises on the null graph and otherwise
    decides mutual reachability; [all_pairs_dijkstra_path_length]
    gives, for every node, the shortest distances to the nodes it
    reaches (computed here by rounds of edge relaxation, which agree
    with Dijkstra on non-negative weights); [np.max] raises on an empty
    array; [np.random.choice(nodes, 3, replace=False)] raises on fewer
    than three nodes and otherwise returns what the random generator
    [rng] yields at that draw. *)

Module Guardrail.

(** A row of an [(N, 6)] arc matrix: origin, destination, demand,
    priority class, service cost, travel cost. *)
Record arc : Type := {
  col0 : Q; col1 : Q; col2 : Q; col3 : Q; col4 : Q; col5 : Q
}.

(** [int(x)] for a float: truncation towards zero. *)
Definition trunc (x : Q) : Z := Z.quot (Qnum x) (Zpos (Qden x)).

Definition Qltb (x y : Q) : bool := negb (Qle_bool y x).

Inductive status : Type := PASS | WARNING | FAIL.

(** The four issue messages, with the values they print. *)
Inductive issue : Type :=
| NotStronglyConnected
| NonPositiveCost
| Infeasible (max_q capacity : Q)
| TriangleViolation (u v w : Z).

Record report : Type := { Status : status; Issues : list issue }.

(** The attributes set by [__init__]. *)
Record guardrail : Type := { capQ : Q; M_vehicles : Z; big_m : Q }.

(** A [MultiDiGraph]: its nodes in insertion order and its weighted edges. *)
Record graph : Type := { nodes : list Z; edges : list (Z * Z * Q) }.

Definition mem (x : Z) (l : list Z) : bool := existsb (Z.eqb x) l.

Definition add_node (ns : list Z) (x : Z) : list Z :=
  if mem x ns then ns else ns ++ [x].

(** [G.add_edge(int(row[0]), int(row[1]), weight=row[5], demand=row[2])] *)
Definition add_arc (g : graph) (row : arc) : graph :=
  let a := trunc (col0 row) in
  let b := trunc (col1 row) in
  {| nodes := add_node (add_node (nodes g) a) b;
     edges := edges g ++ [(a, b, col5 row)] |}.

Definition build_graph (all_arcs : list arc) : graph :=
  foldl add_arc {| nodes := []; edges := [] |} all_arcs.

(** Shortest distances from a source: a table from the reached nodes
    to their best known distance. *)
Abbreviation table := (list (Z * Q)).

Fixpoint lookup (t : table) (x : Z) : option Q :=
  match t with
  | [] => None
  | (k, d) :: t' => if (k =? x)%Z then Some d else lookup t' x
  end.

Fixpoint update (t : table) (x : Z) (d : Q) : table :=
  match t with
  | [] => [(x, d)]
  | (k, d0) :: t' =>
      if (k =? x)%Z then (k, if Qltb d d0 then d else d0) :: t'
      else (k, d0) :: update t' x d
  end.

Definition relax_edge (t : table) (e : Z * Z * Q) : table :=
  let '(a, b, w) := e in
  match lookup t a with
  | Some da => update t b (da + w)%Q
  | None => t
  end.

Fixpoint rounds (k : nat) (es : list (Z * Z * Q)) (t : table) : table :=
  match k with
  | O => t
  | S k' => rounds k' es (foldl relax_edge t es)
  end.

(** [dict(nx.all_pairs_dijkstra_path_length(G, weight='weight'))[s]] *)
Definition dijkstra_from (g : graph) (s : Z) : table :=
  rounds (length (nodes g)) (edges g) [(s, 0%Q)].

(** [nx.is_strongly_connected(G)] *)
Definition is_strongly_connected (g : graph) : result bool :=
  match nodes g with
  | [] => Raise NetworkXPointlessConcept
  | _ :: _ =>
      Ok (forallb (fun s =>
            forallb (fun t => match lookup (dijkstra_from g s) t with
                              | Some _ => true
                              | None => false
                              end) (nodes g)) (nodes g))
  end.

(** [dist_matrix[u]] *)
Definition dist_row (g : graph) (x : Z) : result table :=
  if mem x (nodes g) then Ok (dijkstra_from g x) else Raise KeyError.

(** [np.max(a)] *)
Definition np_max (a : list Q) : result Q :=
  match a with
  | [] => Raise ValueError_empty_max
  | x :: rest => Ok (foldl (fun m y => if Qltb m y then y else m) x rest)
  end.

(** [row.get(w, big_m)] *)
Definition get_or (t : table) (x : Z) (dflt : Q) : Q :=
  match lookup t x with
  | Some d => d
  | None => dflt
  end.

Definition eps : Q := (1 # 10000000)%Q.

Definition add_issue (r : report) (s : status) (i : issue) : report :=
  {| Status := s; Issues := Issues r ++ [i] |}.

(** The sampling loop, with [todo] iterations left and [it] done. *)
Fixpoint sample_loop (self : guardrail) (rng : nat -> list Z -> Z * Z * Z)
    (g : graph) (todo it : nat) (r : report) : result report :=
  match todo with
  | O => Ok r
  | S todo' =>
      if (length (nodes g) <? 3)%nat then Raise ValueError_sample
      else
        let '(u, v, w) := rng it (nodes g) in
        let* ru := dist_row g u in
        let duw := get_or ru w (big_m self) in
        let duv := get_or ru v (big_m self) in
        let* rv := dist_row g v in
        let dvw := get_or rv w (big_m self) in
        if Qltb (duv + dvw + eps)%Q duw
        then Ok (add_issue r FAIL (TriangleViolation u v w))
        else sample_loop self rng g todo' (S it) r
  end.

(** [if not nx.is_strongly_connected(G)]: status FAIL and an issue. *)
Definition check_connectivity (sc : bool) (r : report) : report :=
  if sc then r else add_issue r FAIL NotStronglyConnected.

(** [if np.any(all_arcs[:, 5] <= 0)]: status WARNING and an issue. *)
Definition check_costs (all_arcs : list arc) (r : report) : report :=
  if existsb (fun row => Qle_bool (col5 row) 0%Q) all_arcs
  then add_issue r WARNING NonPositiveCost else r.

(** [if max_q > self.Q]: status FAIL and an issue. *)
Definition check_capacity (self : guardrail) (max_q : Q) (r : report) : report :=
  if Qltb (capQ self) max_q
  then add_issue r FAIL (Infeasible max_q (capQ self)) else r.

Definition validate_instance (self : guardrail) (rng : nat -> list Z -> Z * Z * Z)
    (req nonreq : list arc) : result report :=
  let all_arcs := req ++ nonreq in
  let g := build_graph all_arcs in
  let r0 := {| Status := PASS; Issues := [] |} in
  let* sc := is_strongly_connected g in
  let r1 := check_connectivity sc r0 in
  let r2 := check_costs all_arcs r1 in
  let* max_q := np_max (map col2 req) in
  let r3 := check_capacity self max_q r2 in
  sample_loop self rng g 100 0 r3.

(** *** Vocabulary of the statements *)

(** What [np.random.choice(nodes, 3, replace=False)] can return:
    three distinct nodes. *)
Definition valid_draw (ns : list Z) (t : Z * Z * Z) : Prop :=
  let '(a, b, c) := t in
  mem a ns = true /\ mem b ns = true /\ mem c ns = true /\
  a <> b /\ b <> c /\ a <> c.

(** A generator that draws the first three nodes. *)
Definition first_three (it : nat) (ns : list Z) : Z * Z * Z :=
  match ns with
  | a :: b :: c :: _ => (a, b, c)
  | _ => (0, 0, 0)%Z
  end.

(** A row with the given origin, destination, demand and cost. *)
Definition mk_arc (a b : Z) (q c : Q) : arc :=
  {| col0 := inject_Z a; col1 := inject_Z b; col2 := q;
     col3 := 1%Q; col4 := c; col5 := c |}.

(** The precedence of the specification: FAIL > WARNING > PASS. *)
Definition rank (s : status) : nat :=
  match s with PASS => 0 | WARNING => 1 | FAIL => 2 end.

End Guardrail.

(* ================================================================== *)
(** ** Instances used in the examples *)

Import ParseGdb Build Guardrail.



(** Two tasks between vertices 1 and 2, of costs 5 and 3. *)
Definition parallel_text : str := lit "VERTICES : 2
ARISTAS_REQ : 2
CAPACIDAD : 10
DEPOSITO : 1
LISTA_ARISTAS_REQ :
( 1, 2) coste 5 demanda 1
( 1, 2) coste 3 demanda 2
".

(** Three vertices are declared; the edge line names vertices 0 and 99. *)
Definition stray_text : str := lit "VERTICES : 3
LISTA_ARISTAS_REQ :
( 0, 99) coste 7 demanda 1
".

(** A guardrail of capacity 10, and a path 1 -> 2 -> 3 whose first arc
    costs 0: the graph is not strongly connected, and a cost is not
    positive. *)
Definition guard10 : guardrail :=
  {| capQ := 10%Q; M_vehicles := 1%Z; big_m := 1000000%Q |}.

Definition path_req : list arc :=
  [mk_arc 1 2 1%Q 0%Q; mk_arc 2 3 1%Q 1%Q].

(* ================================================================== *)
(** ** run_all_baselines.py: reading the solvers' output *)

Module Baselines.

(** The class [[0-9.]] of [LINE_RE]. *)
Definition is_timechar (c : ascii) : bool := is_digit c || (code c =? 46).

(** [\s*:::] anchored at the head of [s]: what follows the separator. *)
Definition sep_at (s : str) : option str :=
  let r := lstrip s in
  if startswith r (lit ":::") then Some (skipn 3 r) else None.

(** [\s*:::\s*([0-9.]+)\s*$] anchored at the head of [s]: the group.
    White space, the colon and [[0-9.]] are disjoint classes, so the
    greedy match is the only one. *)
Definition tail_at (s : str) : option str :=
  match sep_at s with
  | Some r =>
      let '(t, rest) := span is_timechar (lstrip r) in
      match t, lstrip rest with
      | _ :: _, [] => Some t
      | _, _ => None
      end
  | None => None
  end.

(** A lazy group [(.*?)] followed by the pattern [m]: the shortest
    prefix after which [m] matches, with what [m] returns.  The lines
    hold no newline, so [.] matches every character. *)
Fixpoint lazy_then {A} (m : str -> option A) (s : str) : option (str * A) :=
  match m s with
  | Some r => Some ([], r)
  | None =>
      match s with
      | [] => None
      | c :: s' =>
          match lazy_then m s' with
          | Some (g, r) => Some (c :: g, r)
          | None => None
          end
      end
  end.

(** [LINE_RE = ^(.*?)\s*:::\s*(.*?)\s*:::\s*([0-9.]+)\s*$] matched
    against a line: the three groups.  After the first separator the
    greedy [\s*] keeps all the white space whenever the line matches. *)
Definition LINE_RE_match (line : str) : option (str * (str * str)) :=
  lazy_then (fun r => match sep_at r with
                      | Some r1 => lazy_then tail_at (lstrip r1)
                      | None => None
                      end) line.

(** The value stored for a file: its [result] and [time] strings. *)
Record outcome : Type := { result_ : str; time_ : str }.

(** [out[f] = val] on a [dict] in insertion order. *)
Fixpoint out_set (m : list (str * outcome)) (f : str) (val : outcome)
    : list (str * outcome) :=
  match m with
  | [] => [(f, val)]
  | (k, x) :: m' => if str_eqb k f then (k, val) :: m' else (k, x) :: out_set m' f val
  end.

(** One iteration of the loop over the lines of [stdout]. *)
Definition output_step (out : list (str * outcome)) (line : str) : list (str * outcome) :=
  match LINE_RE_match (strip line) with
  | None => out
  | Some (g1, (g2, g3)) =>
      out_set out (strip g1) {| result_ := strip g2; time_ := strip g3 |}
  end.

Definition parse_outputs (stdout : str) : list (str * outcome) :=
  foldl output_step [] (splitlines stdout).

End Baselines.

(* ================================================================== *)
(** ** Further vocabulary for the statements *)

Module Vocab.

(** [tok in s] *)
Definition occurs (tok s : str) : Prop :=
  exists pre post, s = pre ++ tok ++ post.

(** [p] is an initial segment of [s]. *)
Definition is_prefix (p s : str) : Prop := exists rest, s = p ++ rest.

(** No white space at either end. *)
Definition trimmed (s : str) : Prop :=
  match s with [] => True | c :: _ => is_space c = false end /\
  match rev s with [] => True | c :: _ => is_space c = false end.

(** [s.rstrip("\n")] *)
Definition rstrip_newlines (s : str) : str := rev (drop_while is_newline (rev s)).


(** An edge of the list joins rows [a] and [b] with weight [w], in
    either direction. *)
Definition joins (n : Z) (edges : list (Z * Z * Z)) (a b : nat) (w : Z) : Prop :=
  exists e, In e edges /\ snd e = w /\
    ((py_index (Z.to_nat (n + 1)) (fst (fst e)) = Some a /\
      py_index (Z.to_nat (n + 1)) (snd (fst e)) = Some b) \/
     (py_index (Z.to_nat (n + 1)) (fst (fst e)) = Some b /\
      py_index (Z.to_nat (n + 1)) (snd (fst e)) = Some a)).



(** Row 0 and column 0 hold only [math.inf]. *)
Definition unused0 (d : matrix) : Prop :=
  forall a, get d a 0 = Inf /\ get d 0 a = Inf.

(** PASS goes with an empty list of issues, and only with it. *)
Definition coherent (r : report) : Prop := Status r = PASS <-> Issues r = [].

(** An entry of the mapping returned by [parse_outputs]: the file and
    the result carry no white space at their ends, and the time is a
    non-empty string over [[0-9.]]. *)
Definition entry_ok (e : str * Baselines.outcome) : Prop :=
  trimmed (fst e) /\ trimmed (Baselines.result_ (snd e)) /\
  Baselines.time_ (snd e) <> [] /\
  forallb Baselines.is_timechar (Baselines.time_ (snd e)) = true.

End Vocab.


(** A directed triangle 1 -> 2 -> 3 -> 1 with unit costs and demands,
    and the same with a demand of 11. *)
Definition cycle_req : list arc :=
  [mk_arc 1 2 1%Q 1%Q; mk_arc 2 3 1%Q 1%Q; mk_arc 3 1 1%Q 1%Q].

Definition heavy_req : list arc :=
  [mk_arc 1 2 11%Q 1%Q; mk_arc 2 3 1%Q 1%Q; mk_arc 3 1 1%Q 1%Q].

(** An edge list closed by a header, with one more edge line after it. *)
Definition closed_text : str := lit "VERTICES : 2
LISTA_ARISTAS_REQ :
( 1, 2) coste 5 demanda 1
DEPOSITO : 1
( 2, 1) coste 4 demanda 1
".

(** Edge lines with no section marker before them. *)
Definition headless_text : str := lit "VERTICES : 2
( 1, 2) coste 5 demanda 1
".

Import Vocab.

(* ================================================================== *)
(** ** Properties of the shortest-path engine *)

Module FwFacts.

Ltac dnum_cases :=
  repeat match goal with
         | x : dnum |- _ => destruct x
         end;
  unfold dmin, dlt, dadd, dle, is_inf in *; simpl in *;
  repeat match goal with
         | |- context [(?a <? ?b)%Z] => destruct (Z.ltb_spec a b)
         | H : context [(?a <? ?b)%Z] |- _ => destruct (Z.ltb_spec a b)
         end;
  simpl in *; try congruence; try (f_equal; lia); try lia; auto.

Lemma square_row m d i r : square m d -> d !! i = Some r -> length r = m.
Proof.
  intros [_ Hall] Hi. rewrite Forall_forall in Hall.
  apply Hall. eapply list_elem_of_lookup_2; eauto.
Qed.

Lemma square_set m d i j x : square m d -> square m (set d i j x).
Proof.
  intros Hsq. unfold set. destruct (d !! i) as [r|] eqn:Hi; [|assumption].
  destruct Hsq as [Hlen Hall]. split.
  - rewrite length_insert. assumption.
  - rewrite Forall_forall in *. intros r' Hin.
    apply list_elem_of_lookup in Hin as [a Ha].
    destruct (decide (a = i)) as [->|Hne].
    + assert (i < length d)%nat by (eapply lookup_lt_Some; eauto).
      rewrite list_lookup_insert_eq in Ha by assumption.
      inversion Ha; subst. rewrite length_insert.
      apply Hall. eapply list_elem_of_lookup_2; eauto.
    + rewrite list_lookup_insert_ne in Ha by congruence.
      apply Hall. eapply list_elem_of_lookup_2; eauto.
Qed.

Lemma get_set_other d i j x a b : (a, b) <> (i, j) -> get (set d i j x) a b = get d a b.
Proof.
  intros Hne. unfold get, set. destruct (d !! i) as [r|] eqn:Hi; [|reflexivity].
  destruct (decide (a = i)) as [->|Hai].
  - assert (i < length d)%nat by (eapply lookup_lt_Some; eauto).
    rewrite list_lookup_insert_eq by assumption. rewrite Hi.
    rewrite list_lookup_insert_ne by congruence. reflexivity.
  - rewrite list_lookup_insert_ne by congruence. reflexivity.
Qed.

Lemma get_set_same m d i j x :
  square m d -> (i < m)%nat -> (j < m)%nat -> get (set d i j x) i j = x.
Proof.
  intros Hsq Hi Hj. unfold get, set.
  destruct (d !! i) as [r|] eqn:Hr.
  - assert (length r = m) by (eapply square_row; eauto).
    destruct Hsq as [Hlen _].
    rewrite list_lookup_insert_eq by lia.
    rewrite list_lookup_insert_eq by lia. reflexivity.
  - apply lookup_ge_None in Hr. destruct Hsq. lia.
Qed.

Lemma set_get_id d i j : set d i j (get d i j) = d.
Proof.
  unfold get, set. destruct (d !! i) as [r|] eqn:Hr; [|reflexivity].
  destruct (r !! j) as [x|] eqn:Hx.
  - rewrite (list_insert_id r j x Hx). apply list_insert_id. assumption.
  - apply lookup_ge_None in Hx. rewrite (list_insert_ge r j) by assumption.
    apply list_insert_id. assumption.
Qed.

Lemma range1_bounds n a : a ∈ range1 n -> (1 <= a < Z.to_nat (n + 1))%nat.
Proof. unfold range1. rewrite elem_of_seq. lia. Qed.

Lemma range1_NoDup n : NoDup (range1 n).
Proof. apply NoDup_seq. Qed.

(** *** What the loops compute, entry by entry *)

Lemma relax_get m k i dik d j a b :
  square m d -> (i < m)%nat -> (j < m)%nat ->
  get (relax k i dik d j) a b =
    if decide (a = i /\ b = j) then dmin (get d i j) (dadd dik (get d k j))
    else get d a b.
Proof.
  intros Hsq Hi Hj. unfold relax.
  destruct (dlt (dadd dik (get d k j)) (get d i j)) eqn:Hlt.
  - case_decide as Hab.
    + destruct Hab as [-> ->]. rewrite (get_set_same m) by assumption.
      unfold dmin. rewrite Hlt. reflexivity.
    + apply get_set_other. intros Heq. inversion Heq. tauto.
  - case_decide as Hab; [|reflexivity].
    destruct Hab as [-> ->]. unfold dmin. rewrite Hlt. reflexivity.
Qed.

Lemma square_relax m k i dik d j : square m d -> square m (relax k i dik d j).
Proof. intros H. unfold relax. destruct dlt; [apply square_set|]; assumption. Qed.

Lemma relax_loop m k i dik js :
  forall d, square m d -> (i < m)%nat -> Forall (fun j => (j < m)%nat) js -> NoDup js ->
    square m (foldl (relax k i dik) d js) /\
    forall a b, get (foldl (relax k i dik) d js) a b =
      if decide (a = i /\ b ∈ js) then dmin (get d i b) (dadd dik (get d k b))
      else get d a b.
Proof.
  induction js as [|j js IH]; intros d Hsq Hi Hall Hnd; simpl.
  - split; [assumption|]. intros a b. case_decide as H; [|reflexivity].
    destruct H as [_ H]. inversion H.
  - inversion Hall as [|? ? Hj Hall']; subst.
    apply NoDup_cons in Hnd as [Hnotin Hnd].
    destruct (IH (relax k i dik d j) (square_relax m k i dik d j Hsq) Hi Hall' Hnd)
      as [Hsq' Hget].
    split; [assumption|]. intros a b. rewrite Hget.
    rewrite !(relax_get m) by assumption.
    repeat case_decide;
      repeat match goal with
             | H : _ /\ _ |- _ => destruct H
             end; subst;
      try reflexivity; exfalso; set_solver.
Qed.

Lemma row_pass_get m n k d i :
  square m d -> m = Z.to_nat (n + 1) -> (i < m)%nat ->
  square m (row_pass n k d i) /\
  forall a b, get (row_pass n k d i) a b =
    if decide (a = i /\ b ∈ range1 n)
    then dmin (get d i b) (dadd (get d i k) (get d k b))
    else get d a b.
Proof.
  intros Hsq Hm Hi. unfold row_pass.
  destruct (is_inf (get d i k)) eqn:Hinf.
  - split; [assumption|]. intros a b. case_decide as H; [|reflexivity].
    destruct H as [-> _]. destruct (get d i k); [discriminate|].
    simpl. unfold dmin. destruct (get d i b); reflexivity.
  - apply relax_loop; try assumption.
    + apply Forall_forall. intros j Hj. apply range1_bounds in Hj. lia.
    + apply range1_NoDup.
Qed.

Lemma dmin_zero_row x : dmin x (dadd (Fin 0) x) = x.
Proof. dnum_cases. Qed.

Lemma rows_loop m n k rows :
  forall d, square m d -> m = Z.to_nat (n + 1) -> get d k k = Fin 0 ->
    Forall (fun i => (i < m)%nat) rows -> NoDup rows ->
    square m (foldl (row_pass n k) d rows) /\
    forall a b, get (foldl (row_pass n k) d rows) a b =
      if decide (a ∈ rows /\ b ∈ range1 n)
      then dmin (get d a b) (dadd (get d a k) (get d k b))
      else get d a b.
Proof.
  induction rows as [|i rows IH]; intros d Hsq Hm Hkk Hall Hnd; cbn [foldl].
  - split; [assumption|]. intros a b. case_decide as H; [|reflexivity].
    destruct H as [H _]. inversion H.
  - pose proof (Forall_inv Hall) as Hi. pose proof (Forall_inv_tail Hall) as Hall'.
    apply NoDup_cons in Hnd as [Hnotin Hnd].
    destruct (row_pass_get m n k d i Hsq Hm Hi) as [Hsq1 Hget1].
    assert (Hkk1 : get (row_pass n k d i) k k = Fin 0).
    { rewrite Hget1. case_decide as H; [|assumption].
      destruct H as [-> _]. rewrite Hkk. reflexivity. }
    destruct (IH _ Hsq1 Hm Hkk1 Hall' Hnd) as [Hsq' Hget].
    split; [assumption|]. intros a b. rewrite Hget. rewrite !Hget1.
    assert (Hrow : forall b', (if decide (k = i /\ b' ∈ range1 n)
                    then dmin (get d i b') (dadd (get d i k) (get d k b'))
                    else get d k b') = get d k b').
    { intros b'. case_decide as H; [|reflexivity]. destruct H as [<- _].
      rewrite Hkk. apply dmin_zero_row. }
    rewrite Hrow.
    repeat case_decide;
      repeat match goal with
             | H : _ /\ _ |- _ => destruct H
             end; subst;
      try reflexivity; exfalso; set_solver.
Qed.

Lemma phase_get n k d :
  square (Z.to_nat (n + 1)) d -> get d k k = Fin 0 ->
  square (Z.to_nat (n + 1)) (phase n d k) /\
  forall a b, get (phase n d k) a b =
    if decide (a ∈ range1 n /\ b ∈ range1 n)
    then dmin (get d a b) (dadd (get d a k) (get d k b))
    else get d a b.
Proof.
  intros Hsq Hkk. unfold phase. apply rows_loop; try assumption; try reflexivity.
  - apply Forall_forall. intros j Hj. apply range1_bounds in Hj. lia.
  - apply range1_NoDup.
Qed.

(** *** The invariant of the outer loop *)

Lemma phase_inv n k d :
  fw_inv n d -> k ∈ range1 n -> fw_inv n (phase n d k).
Proof.
  intros [Hsq Hnn Hdiag Hsym] Hk.
  destruct (phase_get n k d Hsq (Hdiag k Hk)) as [Hsq' Hget].
  split; [assumption| | |].
  - intros a b. rewrite Hget. case_decide; [|apply Hnn].
    pose proof (Hnn a b). pose proof (Hnn a k). pose proof (Hnn k b).
    destruct (get d a b), (get d a k), (get d k b); dnum_cases.
  - intros a Ha. rewrite Hget. rewrite (Hdiag a Ha).
    case_decide; [|reflexivity].
    pose proof (Hnn a k). pose proof (Hnn k a).
    destruct (get d a k), (get d k a); dnum_cases.
  - intros a b. rewrite !Hget.
    rewrite (Hsym a b), (Hsym a k), (Hsym k b).
    repeat case_decide; try tauto.
    destruct (get d b a), (get d k a), (get d b k); dnum_cases.
Qed.



(** *** The matrix before the main loop *)

Lemma get_init_inf n a b : get (init_inf n) a b = Inf.
Proof.
  unfold get, init_inf.
  destruct (replicate _ _ !! a) as [r|] eqn:Hr; [|reflexivity].
  apply lookup_replicate in Hr as [-> _].
  destruct (replicate _ _ !! b) as [x|] eqn:Hx; [|reflexivity].
  apply lookup_replicate in Hx as [-> _]. reflexivity.
Qed.

Lemma square_init_inf n : square (Z.to_nat (n + 1)) (init_inf n).
Proof.
  unfold init_inf. split.
  - apply length_replicate.
  - apply Forall_replicate. apply length_replicate.
Qed.

Lemma diag_loop m rows :
  forall d, square m d -> Forall (fun i => (i < m)%nat) rows ->
    square m (foldl (fun d i => set d i i (Fin 0)) d rows) /\
    forall a b, get (foldl (fun d i => set d i i (Fin 0)) d rows) a b =
      if decide (a = b /\ a ∈ rows) then Fin 0 else get d a b.
Proof.
  induction rows as [|i rows IH]; intros d Hsq Hall; cbn [foldl].
  - split; [assumption|]. intros a b. case_decide as H; [|reflexivity].
    destruct H as [_ H]. inversion H.
  - pose proof (Forall_inv Hall) as Hi. pose proof (Forall_inv_tail Hall) as Hall'.
    destruct (IH (set d i i (Fin 0)) (square_set m d i i (Fin 0) Hsq) Hall')
      as [Hsq' Hget].
    split; [assumption|]. intros a b. rewrite Hget.
    destruct (decide ((a, b) = (i, i))) as [Heq|Hne].
    + inversion Heq; subst. rewrite (get_set_same m) by assumption.
      repeat case_decide; try reflexivity; exfalso; set_solver.
    + rewrite get_set_other by assumption.
      repeat case_decide; try reflexivity; exfalso;
        repeat match goal with
               | H : _ /\ _ |- _ => destruct H
               end; subst.
      * set_solver.
      * match goal with
        | H : _ ∈ _ :: _ |- _ => apply elem_of_cons in H as [->|H]; tauto
        end.
Qed.

Lemma init_inv n : fw_inv n (init_diag n (init_inf n)).
Proof.
  assert (Hall : Forall (fun i => (i < Z.to_nat (n + 1))%nat) (range1 n)).
  { apply Forall_forall. intros j Hj. apply range1_bounds in Hj. lia. }
  destruct (diag_loop _ (range1 n) (init_inf n) (square_init_inf n) Hall)
    as [Hsq Hget].
  unfold init_diag. split; [assumption| | |].
  - intros a b. rewrite Hget, get_init_inf. case_decide; simpl; [lia|exact I].
  - intros a Ha. rewrite Hget. case_decide; [reflexivity|tauto].
  - intros a b. rewrite !Hget, !get_init_inf.
    repeat case_decide; try reflexivity; exfalso;
      match goal with H : _ /\ _ |- _ => destruct H; subst; tauto end.
Qed.

Lemma py_index_lt len i k : py_index len i = Some k -> (k < len)%nat.
Proof.
  unfold py_index. intros H.
  destruct ((0 <=? i)%Z && (i <? Z.of_nat len)%Z) eqn:E1.
  - inversion H; subst. apply andb_prop in E1 as [E1 E2]. lia.
  - destruct ((- Z.of_nat len <=? i)%Z && (i <? 0)%Z) eqn:E2; [|discriminate].
    inversion H; subst. apply andb_prop in E2 as [E2 E3]. lia.
Qed.

Lemma add_edge_spec m d u v w :
  square m d ->
  add_edge d (u, v, w) =
    match py_index m u, py_index m v with
    | Some a, Some b => Ok (put_edge d a b w)
    | _, _ => Raise IndexError
    end.
Proof.
  intros Hsq. pose proof Hsq as [Hlen Hall].
  unfold add_edge, getitem, setitem. rewrite Hlen.
  destruct (py_index m u) as [a|] eqn:Hu; [|destruct (py_index m v); reflexivity].
  pose proof (py_index_lt _ _ _ Hu) as Ha.
  destruct (d !! a) as [ru|] eqn:Hru;
    [|apply lookup_ge_None in Hru; lia].
  cbn [bind]. rewrite (square_row m d a ru Hsq Hru).
  destruct (py_index m v) as [b|] eqn:Hv; [|reflexivity].
  pose proof (py_index_lt _ _ _ Hv) as Hb.
  destruct (ru !! b) as [x|] eqn:Hx;
    [|apply lookup_ge_None in Hx; rewrite (square_row m d a ru Hsq Hru) in Hx; lia].
  cbn [bind]. rewrite length_insert, Hlen.
  assert (Hd1 : <[a:=<[b:=dmin x (Fin w)]> ru]> d = set d a b (dmin (get d a b) (Fin w))).
  { unfold set, get. rewrite Hru, Hx. reflexivity. }
  rewrite Hd1.
  set (d1 := set d a b (dmin (get d a b) (Fin w))).
  assert (Hsq1 : square m d1) by (apply square_set; assumption).
  rewrite Hv.
  destruct (d1 !! b) as [rv|] eqn:Hrv;
    [|apply lookup_ge_None in Hrv; destruct Hsq1; lia].
  cbn [bind]. rewrite (square_row m d1 b rv Hsq1 Hrv), Hu.
  destruct (rv !! a) as [y|] eqn:Hy;
    [|apply lookup_ge_None in Hy; rewrite (square_row m d1 b rv Hsq1 Hrv) in Hy; lia].
  cbn [bind].
  f_equal. unfold put_edge. fold d1. unfold set at 1, get at 1.
  rewrite Hrv, Hy. reflexivity.
Qed.

Lemma square_put_edge m d a b w : square m d -> square m (put_edge d a b w).
Proof. intros H. unfold put_edge. apply square_set, square_set, H. Qed.

Lemma get_put_edge m d a b w x y :
  square m d -> (a < m)%nat -> (b < m)%nat ->
  get (put_edge d a b w) x y =
    if decide ((x, y) = (a, b) \/ (x, y) = (b, a))
    then dmin (get d x y) (Fin w)
    else get d x y.
Proof.
  intros Hsq Ha Hb. unfold put_edge.
  set (d1 := set d a b (dmin (get d a b) (Fin w))).
  assert (Hsq1 : square m d1) by (apply square_set; assumption).
  destruct (decide ((x, y) = (b, a))) as [Hba|Hba].
  - inversion Hba; subst x y. rewrite (get_set_same m) by assumption.
    rewrite decide_True by tauto.
    destruct (decide ((b, a) = (a, b))) as [Hab|Hab].
    + inversion Hab; subst b. unfold d1. rewrite (get_set_same m) by assumption.
      destruct (get d a a); dnum_cases.
    + unfold d1. rewrite get_set_other by assumption. reflexivity.
  - rewrite get_set_other by assumption.
    destruct (decide ((x, y) = (a, b))) as [Hab|Hab].
    + inversion Hab; subst x y. unfold d1. rewrite (get_set_same m) by assumption.
      rewrite decide_True by tauto. reflexivity.
    + unfold d1. rewrite get_set_other by assumption.
      rewrite decide_False by tauto. reflexivity.
Qed.

Lemma put_edge_inv n d a b w :
  fw_inv n d -> (a < Z.to_nat (n + 1))%nat -> (b < Z.to_nat (n + 1))%nat ->
  (0 <= w)%Z -> fw_inv n (put_edge d a b w).
Proof.
  intros [Hsq Hnn Hdiag Hsym] Ha Hb Hw.
  split; [apply square_put_edge; assumption| | |].
  - intros x y. rewrite (get_put_edge _ d a b w x y Hsq Ha Hb).
    pose proof (Hnn x y). case_decide; [|assumption].
    destruct (get d x y); dnum_cases.
  - intros x Hx. rewrite (get_put_edge _ d a b w x x Hsq Ha Hb).
    rewrite (Hdiag x Hx). case_decide; [|reflexivity]. dnum_cases.
  - intros x y.
    rewrite (get_put_edge _ d a b w x y Hsq Ha Hb).
    rewrite (get_put_edge _ d a b w y x Hsq Ha Hb).
    rewrite (Hsym x y).
    repeat case_decide; try reflexivity; exfalso;
      match goal with
      | H : _ \/ _ |- _ => destruct H as [H|H]; inversion H; subst; tauto
      end.
Qed.

Lemma add_edges_inv n edges :
  forall d d', fw_inv n d -> nonneg_weights edges ->
    add_edges d edges = Ok d' -> fw_inv n d'.
Proof.
  induction edges as [|[[u v] w] edges IH]; intros d d' Hinv Hw Hrun; cbn [add_edges] in Hrun.
  - inversion Hrun; subst. assumption.
  - rewrite (add_edge_spec _ d u v w (inv_square n d Hinv)) in Hrun.
    destruct (py_index _ u) as [a|] eqn:Hu; [|discriminate].
    destruct (py_index _ v) as [b|] eqn:Hv; [|discriminate].
    cbn [bind] in Hrun.
    apply (IH (put_edge d a b w) d'); try assumption.
    + apply put_edge_inv; try assumption.
      * eapply py_index_lt; eauto.
      * eapply py_index_lt; eauto.
      * exact (Forall_inv Hw).
    + exact (Forall_inv_tail Hw).
Qed.



Lemma range1_Forall n : Forall (fun k => k ∈ range1 n) (range1 n).
Proof. apply Forall_forall. auto. Qed.


(** *** The skip on an infinite [dik] against the reference loop *)

Lemma ref_relax_relax k i d j : ref_relax k i d j = relax k i (get d i k) d j.
Proof.
  unfold ref_relax, relax, dmin.
  destruct (dlt (dadd (get d i k) (get d k j)) (get d i j)); [reflexivity|].
  apply set_get_id.
Qed.

Lemma relax_inf k i js : forall d, foldl (relax k i Inf) d js = d.
Proof. induction js as [|j js IH]; intros d; simpl; [reflexivity|]. apply IH. Qed.

Lemma ref_row_loop m k i js :
  forall d, square m d -> (i < m)%nat -> Forall (fun j => (j < m)%nat) js ->
    get d k k = Fin 0 ->
    foldl (ref_relax k i) d js = foldl (relax k i (get d i k)) d js.
Proof.
  induction js as [|j js IH]; intros d Hsq Hi Hall Hkk; cbn [foldl]; [reflexivity|].
  pose proof (Forall_inv Hall) as Hj. pose proof (Forall_inv_tail Hall) as Hall'.
  simpl in Hj.
  rewrite ref_relax_relax.
  set (d1 := relax k i (get d i k) d j).
  assert (Hik : get d1 i k = get d i k).
  { unfold d1. rewrite (relax_get m) by assumption.
    case_decide as H; [|reflexivity]. destruct H as [_ ->].
    rewrite Hkk. destruct (get d i j); dnum_cases. }
  assert (Hkk1 : get d1 k k = Fin 0).
  { unfold d1. rewrite (relax_get m) by assumption.
    case_decide as H; [|assumption]. destruct H as [-> ->].
    rewrite Hkk. reflexivity. }
  rewrite <- Hik. apply IH; try assumption.
  apply square_relax. assumption.
Qed.

Lemma ref_row_pass_row_pass n k d i :
  square (Z.to_nat (n + 1)) d -> (i < Z.to_nat (n + 1))%nat -> get d k k = Fin 0 ->
  ref_row_pass n k d i = row_pass n k d i.
Proof.
  intros Hsq Hi Hkk. unfold ref_row_pass, row_pass.
  rewrite (ref_row_loop _ k i (range1 n) d Hsq Hi); [|
    apply Forall_forall; intros j Hj; apply range1_bounds in Hj; lia | assumption].
  destruct (get d i k) eqn:Hik; simpl; [reflexivity|].
  apply relax_inf.
Qed.

Lemma ref_rows_loop n k rows :
  forall d, square (Z.to_nat (n + 1)) d -> get d k k = Fin 0 ->
    Forall (fun i => (i < Z.to_nat (n + 1))%nat) rows ->
    foldl (ref_row_pass n k) d rows = foldl (row_pass n k) d rows.
Proof.
  induction rows as [|i rows IH]; intros d Hsq Hkk Hall; cbn [foldl]; [reflexivity|].
  pose proof (Forall_inv Hall) as Hi. pose proof (Forall_inv_tail Hall) as Hall'.
  simpl in Hi.
  rewrite ref_row_pass_row_pass by assumption.
  destruct (row_pass_get _ n k d i Hsq eq_refl Hi) as [Hsq1 Hget1].
  apply IH; try assumption.
  rewrite Hget1. case_decide as H; [|assumption].
  destruct H as [-> _]. rewrite Hkk. reflexivity.
Qed.

Lemma ref_phase_phase n k d :
  fw_inv n d -> k ∈ range1 n -> ref_phase n d k = phase n d k.
Proof.
  intros Hinv Hk. unfold ref_phase, phase.
  apply ref_rows_loop.
  - apply (inv_square _ _ Hinv).
  - apply (inv_diag _ _ Hinv). assumption.
  - apply Forall_forall. intros j Hj. apply range1_bounds in Hj. lia.
Qed.

(** *** Facts that hold for any weights *)

Lemma square_foldl {A} m (f : matrix -> A -> matrix) l :
  (forall d x, square m d -> square m (f d x)) ->
  forall d, square m d -> square m (foldl f d l).
Proof.
  intros Hf. induction l as [|x l IH]; intros d Hsq; cbn [foldl]; auto.
Qed.

Lemma square_phase n d k :
  square (Z.to_nat (n + 1)) d -> square (Z.to_nat (n + 1)) (phase n d k).
Proof.
  intros Hsq. unfold phase. apply square_foldl; [|assumption].
  intros d' i Hsq'. unfold row_pass. destruct (is_inf _); [assumption|].
  apply square_foldl; [|assumption].
  intros d2 j Hsq2. apply square_relax. assumption.
Qed.

Lemma add_edges_square m edges :
  forall d d', square m d -> add_edges d edges = Ok d' -> square m d'.
Proof.
  induction edges as [|[[u v] w] edges IH]; intros d d' Hsq Hrun; cbn [add_edges] in Hrun.
  - inversion Hrun; subst. assumption.
  - rewrite (add_edge_spec m d u v w Hsq) in Hrun.
    destruct (py_index m u) as [a|]; [|discriminate].
    destruct (py_index m v) as [b|]; [|discriminate].
    cbn [bind] in Hrun. eapply IH; [|eassumption].
    apply square_put_edge. assumption.
Qed.

Lemma floyd_warshall_square n edges d :
  floyd_warshall n edges = Ok d -> square (Z.to_nat (n + 1)) d.
Proof.
  unfold floyd_warshall. intros Hrun.
  destruct (add_edges _ edges) as [d0|] eqn:Hd0; [|discriminate].
  cbn [bind] in Hrun. inversion Hrun; subst d.
  apply square_foldl; [intros; apply square_phase; assumption|].
  eapply add_edges_square; [|eassumption].
  apply (inv_square _ _ (init_inv n)).
Qed.









Lemma ref_phases n ks :
  forall d, fw_inv n d -> Forall (fun k => k ∈ range1 n) ks ->
    foldl (ref_phase n) d ks = foldl (phase n) d ks.
Proof.
  induction ks as [|k ks IH]; intros d Hinv Hall; cbn [foldl]; [reflexivity|].
  pose proof (Forall_inv Hall) as Hk. pose proof (Forall_inv_tail Hall) as Hall'.
  simpl in Hk.
  rewrite ref_phase_phase by assumption.
  apply IH; [apply phase_inv|]; assumption.
Qed.

End FwFacts.

Import FwFacts.

(** The specification's example: with edges (1,2,3), (2,3,4) and
    (1,3,10), [dist[1][3]] is 7. *)
Example floyd_warshall_via_vertex_2 :
  exists d, floyd_warshall 3 [(1, 2, 3); (2, 3, 4); (1, 3, 10)]%Z = Ok d /\
            get d 1 3 = Fin 7.
Proof. eexists. split; vm_compute; reflexivity. Qed.





(** C8: on non-negative weights [floyd_warshall], which skips the inner
    loop when [dist[i][k]] is infinite, returns exactly what the
    reference loop returns, which always performs
    [dist[i][j] <- min(dist[i][j], dist[i][k] + dist[k][j])]
    (the same matrix, or the same [IndexError]). *)
Theorem infinity_skip_is_pure n edges :
  nonneg_weights edges ->
  floyd_warshall n edges = ref_floyd_warshall n edges.
Proof.
  intros Hw. unfold floyd_warshall, ref_floyd_warshall.
  destruct (add_edges _ edges) as [d0|] eqn:Hd0; cbn [bind]; [|reflexivity].
  f_equal. symmetry. apply ref_phases.
  - exact (add_edges_inv n edges _ d0 (init_inv n) Hw Hd0).
  - apply range1_Forall.
Qed.

Lemma infinity_skip_is_pure_witness :
  nonneg_weights [(1, 2, 3); (3, 4, 1)]%Z /\
  floyd_warshall 4 [(1, 2, 3); (3, 4, 1)]%Z = ref_floyd_warshall 4 [(1, 2, 3); (3, 4, 1)]%Z.
Proof.
  assert (Hw : nonneg_weights [(1, 2, 3); (3, 4, 1)]%Z).
  { repeat constructor; simpl; lia. }
  split; [exact Hw|].
  apply (infinity_skip_is_pure 4 [(1, 2, 3); (3, 4, 1)]%Z Hw).
Defined.

(* ================================================================== *)
(** ** Properties of the bundle assembler *)

Module BuildFacts.

Import ParseGdb Build.

Lemma py_index_nat m i : (i < m)%nat -> py_index m (Z.of_nat i) = Some i.
Proof.
  intros Hi. unfold py_index.
  destruct ((0 <=? Z.of_nat i)%Z && (Z.of_nat i <? Z.of_nat m)%Z) eqn:E.
  - rewrite Nat2Z.id. reflexivity.
  - apply andb_false_iff in E as [E|E]; lia.
Qed.

Lemma unreachable_among_spec m d dep a vs :
  square m d -> py_index m dep = Some a -> Forall (fun i => (i < m)%nat) vs ->
  unreachable_among d dep vs = Ok (List.filter (fun i => is_inf (get d a i)) vs).
Proof.
  intros Hsq Hdep. pose proof (py_index_lt _ _ _ Hdep) as Ha.
  induction vs as [|i vs IH]; intros Hall; cbn [unreachable_among List.filter];
    [reflexivity|].
  pose proof (Forall_inv Hall) as Hi. simpl in Hi.
  unfold getitem at 1. destruct Hsq as [Hlen Hrows]. rewrite Hlen, Hdep.
  destruct (d !! a) as [row|] eqn:Hrow; [|apply lookup_ge_None in Hrow; lia].
  cbn [bind].
  assert (Hlr : length row = m) by (eapply square_row; [split|]; eauto).
  unfold getitem. rewrite Hlr, (py_index_nat m i Hi).
  destruct (row !! i) as [x|] eqn:Hx; [|apply lookup_ge_None in Hx; lia].
  cbn [bind]. rewrite (IH (Forall_inv_tail Hall)). cbn [bind].
  unfold get. rewrite Hrow, Hx. reflexivity.
Qed.


End BuildFacts.

Import BuildFacts.





(** C10: the bundle carries the parser's required-edge list as it is,
    in order and with duplicates, and counts it. *)
Theorem bundle_tasks_verbatim p b :
  build_carp_instance p = Ok b ->
  tasks b = required_edges p /\ n_tasks b = length (required_edges p).
Proof.
  unfold build_carp_instance. intros Hrun.
  destruct (py_int (n_vertices (meta p))) as [n|]; cbn [bind] in Hrun; [|discriminate].
  destruct (py_int (depot (meta p))) as [dep|]; cbn [bind] in Hrun; [|discriminate].
  destruct (py_int (capacity (meta p))) as [cap|]; cbn [bind] in Hrun; [|discriminate].
  destruct (floyd_warshall n _) as [d|]; cbn [bind] in Hrun; [|discriminate].
  destruct (unreachable_among d dep _) as [[|x l]|]; cbn [bind] in Hrun;
    try discriminate.
  inversion Hrun; subst b. split; reflexivity.
Qed.

Lemma bundle_tasks_verbatim_witness :
  exists b, build_carp_instance (parse_gdb_dat parallel_text) = Ok b /\
            tasks b = required_edges (parse_gdb_dat parallel_text) /\
            n_tasks b = length (required_edges (parse_gdb_dat parallel_text)) /\
            map cost (tasks b) = [5; 3]%Z /\ get (dist b) 1 2 = Fin 3.
Proof.
  destruct (build_carp_instance (parse_gdb_dat parallel_text)) as [b|] eqn:Hb;
    [|vm_compute in Hb; discriminate].
  exists b. split; [reflexivity|].
  destruct (bundle_tasks_verbatim _ b Hb) as [Ht Hn].
  split; [exact Ht|]. split; [exact Hn|].
  vm_compute in Hb. inversion Hb; subst b. vm_compute. auto.
Defined.

(* ================================================================== *)
(** ** Properties of the parser *)

Module ParseFacts.

Import ParseGdb.

Lemma int_of_digits_nonneg s : (0 <= int_of_digits s)%Z.
Proof.
  unfold int_of_digits.
  assert (H : forall acc, (0 <= acc)%Z ->
                (0 <= foldl (fun acc c => 10 * acc + digit_val c) acc s)%Z).
  { induction s as [|c s IH]; intros acc Hacc; cbn [foldl]; [assumption|].
    apply IH. unfold digit_val. lia. }
  apply H. lia.
Qed.

Lemma header_step_edges st line :
  s_required_edges (header_step st line) = s_required_edges st.
Proof. unfold header_step. destruct (HEADER_RE_match line) as [[k x]|]; reflexivity. Qed.

Lemma header_step_seen st line :
  seen_req_header (header_step st line) = seen_req_header st.
Proof. unfold header_step. destruct (HEADER_RE_match line) as [[k x]|]; reflexivity. Qed.

(** The loop only appends to [required_edges], and what it appends
    comes from groups of digits. *)
Lemma step_edges (P : edge -> Prop) st raw :
  (forall gu gv gc gd,
      P {| u := int_of_digits gu; v := int_of_digits gv; cost := int_of_digits gc;
           demand := int_of_digits gd; required := true |}) ->
  Forall P (s_required_edges st) -> Forall P (s_required_edges (step st raw)).
Proof.
  intros Hnew Hall. unfold step.
  destruct (clean raw) as [|c line]; [assumption|].
  destruct (is_section_start (c :: line)); [assumption|].
  destruct (in_req_list st); [|rewrite header_step_edges; assumption].
  destruct (PAIR_RE_search (c :: line)) as [[gu gv]|];
    destruct (COST_RE_search (c :: line)) as [gc|];
    destruct (DEM_RE_search (c :: line)) as [gd|];
    try (destruct (HEADER_RE_match (c :: line));
         [rewrite header_step_edges|]; assumption).
  cbn [s_required_edges]. apply Forall_app. split; [assumption|].
  constructor; [apply Hnew|constructor].
Qed.

Lemma scan_edges (P : edge -> Prop) lines :
  (forall gu gv gc gd,
      P {| u := int_of_digits gu; v := int_of_digits gv; cost := int_of_digits gc;
           demand := int_of_digits gd; required := true |}) ->
  forall st, Forall P (s_required_edges st) ->
    Forall P (s_required_edges (foldl step st lines)).
Proof.
  intros Hnew. induction lines as [|raw lines IH]; intros st Hall; cbn [foldl];
    [assumption|].
  apply IH. apply step_edges; assumption.
Qed.

Lemma step_seen st raw :
  seen_req_header (step st raw) = seen_req_header st || is_section_start (clean raw).
Proof.
  unfold step. destruct (clean raw) as [|c line] eqn:Hline.
  - rewrite orb_false_r. reflexivity.
  - destruct (is_section_start (c :: line)); cbn [seen_req_header].
    + rewrite orb_true_r. reflexivity.
    + rewrite orb_false_r.
      destruct (in_req_list st); [|apply header_step_seen].
      destruct (PAIR_RE_search (c :: line)) as [[gu gv]|];
        destruct (COST_RE_search (c :: line)) as [gc|];
        destruct (DEM_RE_search (c :: line)) as [gd|];
        try reflexivity;
        (destruct (HEADER_RE_match (c :: line));
         [rewrite header_step_seen|]; reflexivity).
Qed.

Lemma scan_seen lines :
  forall st, seen_req_header (foldl step st lines) =
             seen_req_header st || existsb (fun raw => is_section_start (clean raw)) lines.
Proof.
  induction lines as [|raw lines IH]; intros st; cbn [foldl existsb].
  - rewrite orb_false_r. reflexivity.
  - rewrite IH, step_seen, orb_assoc. reflexivity.
Qed.

End ParseFacts.

Import ParseFacts.

(** C4, as stated, fails: with 3 declared vertices the parser emits an
    edge whose endpoints 0 and 99 lie outside [1, 3]. *)
Lemma parser_emits_stray_endpoints :
  n_vertices (meta (parse_gdb_dat stray_text)) = Some (VInt 3) /\
  exists e, e ∈ required_edges (parse_gdb_dat stray_text) /\
            ~ ((1 <= u e <= 3)%Z /\ (1 <= v e <= 3)%Z).
Proof.
  split; [vm_compute; reflexivity|].
  exists {| u := 0; v := 99; cost := 7; demand := 1; required := true |}.
  split; [vm_compute; constructor|]. simpl. lia.
Qed.

(** C4, amended: every edge the parser emits has non-negative integers
    for its endpoints, cost and demand, and [required] true; the
    endpoints are not compared with the declared vertex count. *)
Theorem parser_edges_from_digits text :
  Forall edge_from_digits (required_edges (parse_gdb_dat text)).
Proof.
  unfold parse_gdb_dat. cbn [required_edges].
  apply scan_edges; [|constructor].
  intros gu gv gc gd. unfold edge_from_digits. cbn [u v cost demand required].
  repeat split; apply int_of_digits_nonneg.
Qed.

(** C9: when the section marker occurs in the text and the header
    [ARISTAS_REQ] declares the number of edges that were parsed, the
    list of warnings is empty. *)
Theorem no_warnings_when_consistent text :
  has_section_marker text = true ->
  n_req (meta (parse_gdb_dat text)) =
    Some (VInt (Z.of_nat (length (required_edges (parse_gdb_dat text))))) ->
  warnings (parse_gdb_dat text) = [].
Proof.
  unfold has_section_marker, parse_gdb_dat.
  cbn [meta n_req required_edges warnings].
  intros Hmark Hreq.
  rewrite scan_seen, Hmark, orb_true_r. rewrite Hreq.
  cbn [differs]. rewrite Z.eqb_refl. cbn [negb].
  destruct (s_meta (foldl step scan0 (splitlines text))) as [|kv m];
    [discriminate Hreq|reflexivity].
Qed.

Lemma no_warnings_when_consistent_witness :
  has_section_marker parallel_text = true /\
  length (required_edges (parse_gdb_dat parallel_text)) = 2%nat /\
  warnings (parse_gdb_dat parallel_text) = [].
Proof.
  split; [vm_compute; reflexivity|]. split; [vm_compute; reflexivity|].
  apply (no_warnings_when_consistent parallel_text); vm_compute; reflexivity.
Defined.

(* ================================================================== *)
(** ** Properties of the guardrail *)

Module GuardrailFacts.

Lemma mem_cases x (ns : list Z) : mem x ns = true -> In x ns.
Proof.
  unfold mem. intros H. apply existsb_exists in H as (y & Hy & Heq).
  apply Z.eqb_eq in Heq. subst. assumption.
Qed.


(** On the path 1 -> 2 -> 3 no draw of three nodes violates the
    triangle inequality, whatever the generator. *)
Lemma path_sample_loop rng :
  (forall it, valid_draw [1; 2; 3]%Z (rng it [1; 2; 3]%Z)) ->
  forall todo it r,
    sample_loop guard10 rng (build_graph (path_req ++ [])) todo it r = Ok r.
Proof.
  intros Hdraw.
  assert (Hn : nodes (build_graph (path_req ++ [])) = [1; 2; 3]%Z)
    by (vm_compute; reflexivity).
  induction todo as [|todo IH]; intros it r; cbn [sample_loop]; [reflexivity|].
  rewrite Hn. cbn [length Nat.ltb Nat.leb].
  specialize (Hdraw it). destruct (rng it [1; 2; 3]%Z) as [[a b] c].
  destruct Hdraw as (Ha & Hb & Hc & _).
  apply mem_cases in Ha, Hb, Hc. simpl in Ha, Hb, Hc.
  destruct Ha as [<-|[<-|[<-|[]]]];
    destruct Hb as [<-|[<-|[<-|[]]]];
    destruct Hc as [<-|[<-|[<-|[]]]];
    repeat (match goal with
            | |- Py.bind ?x _ = _ =>
                let y := eval vm_compute in x in change x with y
            end; cbn [bind]);
    match goal with
    | |- (if ?c then _ else _) = _ =>
        let y := eval vm_compute in c in change c with y
    end; cbv iota; apply IH.
Qed.

End GuardrailFacts.

Import GuardrailFacts.

(** C2 at a failing input: the strong-connectivity check sets FAIL,
    the cost check then overwrites it with WARNING, which ranks lower,
    and the report comes back with status WARNING although its first
    issue is the connectivity failure. *)
Theorem cost_check_lowers_fail :
  let r0 := {| Status := PASS; Issues := [] |} in
  is_strongly_connected (build_graph (path_req ++ [])) = Ok false /\
  Status (check_connectivity false r0) = FAIL /\
  Status (check_costs (path_req ++ []) (check_connectivity false r0)) = WARNING /\
  (rank WARNING < rank FAIL)%nat /\
  validate_instance guard10 first_three path_req [] =
    Ok {| Status := WARNING; Issues := [NotStronglyConnected; NonPositiveCost] |}.
Proof.
  cbv zeta. split; [vm_compute; reflexivity|].
  split; [reflexivity|]. split; [reflexivity|].
  split; [simpl; lia|]. vm_compute. reflexivity.
Qed.

(** The same report for every random generator: the draws do not matter. *)
Lemma any_draw_gives_warning rng :
  (forall it, valid_draw [1; 2; 3]%Z (rng it [1; 2; 3]%Z)) ->
  validate_instance guard10 rng path_req [] =
    Ok {| Status := WARNING; Issues := [NotStronglyConnected; NonPositiveCost] |}.
Proof.
  intros Hdraw. unfold validate_instance.
  replace (is_strongly_connected (build_graph (path_req ++ []))) with (@Ok bool false)
    by (vm_compute; reflexivity).
  cbn [bind].
  replace (np_max (map col2 path_req)) with (Ok 1%Q) by (vm_compute; reflexivity).
  cbn [bind].
  rewrite (path_sample_loop rng Hdraw). reflexivity.
Qed.

(** The other three checks only ever set FAIL, the top of the order:
    they never lower the status. *)
Lemma other_checks_never_lower self sc max_q r :
  (rank (Status r) <= rank (Status (check_connectivity sc r)))%nat /\
  (rank (Status r) <= rank (Status (check_capacity self max_q r)))%nat.
Proof.
  unfold check_connectivity, check_capacity.
  destruct sc, (Qltb (capQ self) max_q), r as [[] ?]; simpl; lia.
Qed.




(* ================================================================== *)
(** ** Further properties of the parser *)

Module ParseMore.

Lemma startswith_app s p : startswith s p = true <-> exists rest, s = p ++ rest.
Proof.
  revert s. induction p as [|y p IH]; intros s; simpl.
  - split; [eauto|destruct s; reflexivity].
  - destruct s as [|x s]; simpl.
    + split; [discriminate|]. intros [rest H]. discriminate.
    + rewrite andb_true_iff, Ascii.eqb_eq, IH. split.
      * intros [-> [rest ->]]. eauto.
      * intros [rest H]. inversion H; subst. eauto.
Qed.

Lemma before_prefix tok s : is_prefix (before tok s) s.
Proof.
  induction s as [|c s IH]; cbn [before].
  - exists []. reflexivity.
  - destruct (startswith (c :: s) tok); [exists (c :: s); reflexivity|].
    destruct IH as [rest IH]. exists rest. simpl. rewrite <- IH. reflexivity.
Qed.

Lemma occurs_prefix tok p s : is_prefix p s -> occurs tok p -> occurs tok s.
Proof.
  intros [rest ->] (pre & post & ->). exists pre, (post ++ rest).
  rewrite <- !app_assoc. reflexivity.
Qed.

Lemma before_no_occurrence tok s : tok <> [] -> ~ occurs tok (before tok s).
Proof.
  intros Htok. induction s as [|c s IH].
  - simpl. intros (pre & post & H). destruct pre, tok; simpl in H; congruence.
  - cbn [before]. destruct (startswith (c :: s) tok) eqn:Hsw.
    + intros (pre & post & H). destruct pre, tok; simpl in H; congruence.
    + intros (pre & post & H). destruct pre as [|x pre]; simpl in H.
      * assert (Hst : startswith (c :: s) tok = true); [|congruence].
        apply startswith_app. destruct (before_prefix tok s) as [rest Hrest].
        exists (post ++ rest). rewrite app_assoc, <- H. simpl. rewrite <- Hrest.
        reflexivity.
      * inversion H; subst x. apply IH. exists pre, post. assumption.
Qed.

Lemma before_id tok s : ~ occurs tok s -> before tok s = s.
Proof.
  induction s as [|c s IH]; intros Hno; cbn [before]; [reflexivity|].
  destruct (startswith (c :: s) tok) eqn:Hsw.
  - exfalso. apply Hno. apply startswith_app in Hsw as [rest ->].
    exists [], rest. reflexivity.
  - f_equal. apply IH. intros (pre & post & ->). apply Hno.
    exists (c :: pre), post. reflexivity.
Qed.

Lemma drop_while_suffix f s : exists pre, s = pre ++ drop_while f s.
Proof.
  induction s as [|c s [pre IH]]; simpl.
  - exists []. reflexivity.
  - destruct (f c); [exists (c :: pre); simpl; congruence|exists []; reflexivity].
Qed.

Lemma rstrip_newlines_prefix s : is_prefix (rstrip_newlines s) s.
Proof.
  unfold rstrip_newlines. destruct (drop_while_suffix is_newline (rev s)) as [pre H].
  exists (rev pre). apply (f_equal (@rev ascii)) in H.
  rewrite rev_involutive, rev_app_distr in H. assumption.
Qed.

Lemma is_prefix_trans a b c : is_prefix a b -> is_prefix b c -> is_prefix a c.
Proof. intros [r1 ->] [r2 ->]. exists (r1 ++ r2). rewrite app_assoc. reflexivity. Qed.

Lemma strip_comment_unfold line :
  strip_comment line =
    rstrip_newlines (before (lit ";") (before (lit "%") (before (lit "#")
                      (before (lit "//") line)))).
Proof. reflexivity. Qed.

End ParseMore.

Import ParseMore.

(** X1: [strip_comment] returns an initial segment of the line in
    which none of the comment tokens [//], [#], [%], [;] occurs; a line
    without any token only loses its trailing newlines. *)
Theorem strip_comment_cuts_tokens line :
  is_prefix (strip_comment line) line /\
  Forall (fun tok => ~ occurs tok (strip_comment line)) COMMENT_TOKENS /\
  (Forall (fun tok => ~ occurs tok line) COMMENT_TOKENS ->
   strip_comment line = rstrip_newlines line).
Proof.
  rewrite strip_comment_unfold.
  set (s1 := before (lit "//") line).
  set (s2 := before (lit "#") s1).
  set (s3 := before (lit "%") s2).
  set (s4 := before (lit ";") s3).
  assert (P1 : is_prefix s1 line) by apply before_prefix.
  assert (P2 : is_prefix s2 s1) by apply before_prefix.
  assert (P3 : is_prefix s3 s2) by apply before_prefix.
  assert (P4 : is_prefix s4 s3) by apply before_prefix.
  assert (P5 : is_prefix (rstrip_newlines s4) s4) by apply rstrip_newlines_prefix.
  assert (N1 : ~ occurs (lit "//") s1) by (apply before_no_occurrence; discriminate).
  assert (N2 : ~ occurs (lit "#") s2) by (apply before_no_occurrence; discriminate).
  assert (N3 : ~ occurs (lit "%") s3) by (apply before_no_occurrence; discriminate).
  assert (N4 : ~ occurs (lit ";") s4) by (apply before_no_occurrence; discriminate).
  split; [|split].
  - eauto using is_prefix_trans.
  - unfold COMMENT_TOKENS. repeat constructor; intros Hocc.
    + apply N1. eauto 10 using occurs_prefix, is_prefix_trans.
    + apply N2. eauto 10 using occurs_prefix, is_prefix_trans.
    + apply N3. eauto 10 using occurs_prefix, is_prefix_trans.
    + apply N4. eauto 10 using occurs_prefix, is_prefix_trans.
  - unfold COMMENT_TOKENS. intros Hno.
    pose proof (Forall_inv Hno) as H1.
    pose proof (Forall_inv (Forall_inv_tail Hno)) as H2.
    pose proof (Forall_inv (Forall_inv_tail (Forall_inv_tail Hno))) as H3.
    pose proof (Forall_inv (Forall_inv_tail (Forall_inv_tail (Forall_inv_tail Hno)))) as H4.
    unfold s4, s3, s2, s1.
    rewrite (before_id (lit "//") line H1), (before_id (lit "#") line H2),
      (before_id (lit "%") line H3), (before_id (lit ";") line H4).
    reflexivity.
Qed.

Lemma strip_comment_cuts_tokens_witness :
  strip_comment (lit "VERTICES : 3") = lit "VERTICES : 3".
Proof.
  destruct (strip_comment_cuts_tokens (lit "VERTICES : 3")) as (_ & _ & H).
  rewrite H; [reflexivity|].
  repeat constructor; intros (pre & post & Heq);
    repeat (destruct pre as [|? pre]; [discriminate Heq|];
            injection Heq as <- Heq);
    destruct pre; discriminate Heq.
Defined.

Module KeyFacts.



Lemma drop_while_head f s :
  match drop_while f s with [] => True | c :: _ => f c = false end.
Proof.
  induction s as [|c s IH]; simpl; [exact I|].
  destruct (f c) eqn:Hc; [assumption|exact Hc].
Qed.

Lemma strip_trimmed s : trimmed (strip s).
Proof.
  unfold trimmed, strip, rstrip, lstrip. split.
  - pose proof (drop_while_head is_space s) as Hh.
    destruct (drop_while_suffix is_space (rev (drop_while is_space s))) as [pre Hpre].
    apply (f_equal (@rev ascii)) in Hpre. rewrite rev_involutive, rev_app_distr in Hpre.
    destruct (rev (drop_while is_space (rev (drop_while is_space s)))) as [|c r];
      [exact I|].
    rewrite Hpre in Hh. exact Hh.
  - rewrite rev_involutive. apply drop_while_head.
Qed.

Lemma trimmed_strip s : trimmed s -> strip s = s.
Proof.
  intros [Hh Ht]. unfold strip, rstrip, lstrip.
  assert (H1 : drop_while is_space s = s).
  { destruct s as [|c s]; [reflexivity|]. simpl. rewrite Hh. reflexivity. }
  rewrite H1.
  assert (H2 : drop_while is_space (rev s) = rev s).
  { destruct (rev s) as [|c r]; [reflexivity|]. simpl. rewrite Ht. reflexivity. }
  rewrite H2. apply rev_involutive.
Qed.


End KeyFacts.

Import KeyFacts.


Module ScanFacts.

(** Until the section marker is seen the loop stays outside the edge
    list and has no edge. *)
Lemma step_before_marker st raw :
  (seen_req_header st = false -> in_req_list st = false /\ s_required_edges st = []) ->
  seen_req_header (step st raw) = false ->
  in_req_list (step st raw) = false /\ s_required_edges (step st raw) = [].
Proof.
  intros Hinv Hseen. rewrite step_seen in Hseen.
  apply orb_false_iff in Hseen as [Hs Hm].
  destruct (Hinv Hs) as [Hin He]. unfold step in *.
  destruct (clean raw) as [|c line]; [auto|].
  rewrite Hm, Hin. unfold header_step.
  destruct (HEADER_RE_match (c :: line)) as [[k x]|]; simpl; auto.
Qed.

Lemma scan_before_marker lines :
  forall st,
    (seen_req_header st = false -> in_req_list st = false /\ s_required_edges st = []) ->
    seen_req_header (foldl step st lines) = false ->
    s_required_edges (foldl step st lines) = [].
Proof.
  induction lines as [|raw lines IH]; intros st Hinv Hseen; cbn [foldl] in *.
  - apply Hinv. assumption.
  - apply IH; [|assumption]. apply step_before_marker. assumption.
Qed.

Lemma step_one_edge st raw :
  (length (s_required_edges (step st raw)) <= S (length (s_required_edges st)))%nat.
Proof.
  unfold step. destruct (clean raw) as [|c line]; [lia|].
  destruct (is_section_start (c :: line)); [simpl; lia|].
  destruct (in_req_list st); [|rewrite header_step_edges; lia].
  destruct (PAIR_RE_search (c :: line)) as [[gu gv]|];
    destruct (COST_RE_search (c :: line)) as [gc|];
    destruct (DEM_RE_search (c :: line)) as [gd|];
    try (destruct (HEADER_RE_match (c :: line));
         [rewrite header_step_edges|]; cbn [s_required_edges]; lia).
  cbn [s_required_edges]. rewrite length_app. simpl. lia.
Qed.

Lemma scan_edge_count lines :
  forall st,
    (length (s_required_edges (foldl step st lines)) <=
     length (s_required_edges st) + length lines)%nat.
Proof.
  induction lines as [|raw lines IH]; intros st; cbn [foldl length]; [lia|].
  specialize (IH (step st raw)). pose proof (step_one_edge st raw). lia.
Qed.

End ScanFacts.

Import ScanFacts.

(** X3: when the text has no section marker, the parser emits no
    required edge at all, and warns that the section header is
    missing. *)
Theorem no_marker_no_edges text :
  has_section_marker text = false ->
  required_edges (parse_gdb_dat text) = [] /\
  In NoSectionHeader (warnings (parse_gdb_dat text)).
Proof.
  unfold has_section_marker, parse_gdb_dat. cbn [required_edges warnings].
  intros Hm.
  assert (Hseen : seen_req_header (foldl step scan0 (splitlines text)) = false).
  { rewrite scan_seen, Hm. reflexivity. }
  split.
  - apply scan_before_marker; [|assumption]. intros _. split; reflexivity.
  - rewrite Hseen. apply in_or_app. right. apply in_or_app. left. left. reflexivity.
Qed.

Lemma no_marker_no_edges_witness :
  required_edges (parse_gdb_dat headless_text) = [] /\
  In NoSectionHeader (warnings (parse_gdb_dat headless_text)).
Proof. apply (no_marker_no_edges headless_text). vm_compute. reflexivity. Defined.

(** X4: the list of warnings is empty exactly when at least one header
    was parsed, the section marker occurs, and [ARISTAS_REQ] is either
    absent or the integer number of parsed edges. *)
Theorem warnings_empty_iff text :
  warnings (parse_gdb_dat text) = [] <->
  meta_raw (parse_gdb_dat text) <> [] /\
  has_section_marker text = true /\
  (n_req (meta (parse_gdb_dat text)) = None \/
   n_req (meta (parse_gdb_dat text)) =
     Some (VInt (Z.of_nat (length (required_edges (parse_gdb_dat text)))))).
Proof.
  unfold has_section_marker, parse_gdb_dat.
  cbn [meta n_req required_edges warnings meta_raw].
  rewrite scan_seen. cbn [seen_req_header scan0 orb].
  set (st := foldl step scan0 (splitlines text)).
  destruct (s_meta st) as [|kv m] eqn:Hmeta.
  - split; [discriminate|]. intros [H _]. congruence.
  - destruct (existsb _ (splitlines text)).
    + destruct (dict_get (kv :: m) (lit "ARISTAS_REQ")) as [[z|x]|] eqn:Hreq;
        cbn [differs app].
      * destruct (Z.eqb_spec z (Z.of_nat (length (s_required_edges st)))) as [->|Hne];
          cbn [negb].
        -- split; [intros _; split; [congruence|split; [reflexivity|auto]]|reflexivity].
        -- split; [discriminate|]. intros (_ & _ & [H|H]); congruence.
      * split; [discriminate|]. intros (_ & _ & [H|H]); discriminate.
      * split; [intros _; split; [congruence|split; [reflexivity|auto]]|reflexivity].
    + split.
      * intros H. simpl in H. discriminate H.
      * intros (_ & H & _). discriminate.
Qed.

(** X5: every line of the text yields at most one required edge. *)
Theorem at_most_one_edge_per_line text :
  (length (required_edges (parse_gdb_dat text)) <= length (splitlines text))%nat.
Proof.
  unfold parse_gdb_dat. cbn [required_edges].
  pose proof (scan_edge_count (splitlines text) scan0) as H. simpl in H. exact H.
Qed.

(* ================================================================== *)
(** ** Further properties of the shortest-path engine *)

Module PathFacts.








Lemma joins_sym n edges a b w : joins n edges a b w -> joins n edges b a w.
Proof. intros (e & He & Hw & H). exists e. tauto. Qed.










(** The main loop leaves alone what lies outside rows and columns [1..n]. *)
Lemma relax_loop_outside k i dik js a b :
  (a <> i \/ ~ In b js) ->
  forall d, get (foldl (relax k i dik) d js) a b = get d a b.
Proof.
  intros Hout. induction js as [|j js IH]; intros d; cbn [foldl]; [reflexivity|].
  rewrite IH by (simpl in Hout; tauto).
  unfold relax. destruct (dlt _ _); [|reflexivity].
  apply get_set_other. intros Heq. inversion Heq; subst. simpl in Hout. tauto.
Qed.

Lemma rows_outside n k a b rows :
  (~ In a (range1 n) \/ ~ In b (range1 n)) ->
  (forall i, In i rows -> In i (range1 n)) ->
  forall d, get (foldl (row_pass n k) d rows) a b = get d a b.
Proof.
  intros Hout. induction rows as [|i rows IH]; intros Hsub d; cbn [foldl];
    [reflexivity|].
  rewrite IH by (intros; apply Hsub; right; assumption).
  unfold row_pass. destruct (is_inf _); [reflexivity|].
  apply relax_loop_outside.
  destruct (decide (a = i)) as [->|Hne]; [|left; assumption].
  right. destruct Hout as [Ha|Hb]; [|assumption].
  exfalso. apply Ha. apply Hsub. left. reflexivity.
Qed.

Lemma phase_outside n k a b :
  (~ In a (range1 n) \/ ~ In b (range1 n)) ->
  forall d, get (phase n d k) a b = get d a b.
Proof. intros Hout d. unfold phase. apply rows_outside; auto. Qed.

Lemma phases_outside n ks a b :
  (~ In a (range1 n) \/ ~ In b (range1 n)) ->
  forall d, get (foldl (phase n) d ks) a b = get d a b.
Proof.
  intros Hout. induction ks as [|k ks IH]; intros d; cbn [foldl]; [reflexivity|].
  rewrite IH. apply phase_outside. assumption.
Qed.

End PathFacts.

Import PathFacts.




Module UnusedFacts.

Lemma zero_outside n : ~ In 0%nat (range1 n).
Proof. unfold range1. rewrite in_seq. lia. Qed.

Lemma unused0_init n : unused0 (init_diag n (init_inf n)).
Proof.
  assert (Hall : Forall (fun i => (i < Z.to_nat (n + 1))%nat) (range1 n)).
  { apply Forall_forall. intros j Hj. apply range1_bounds in Hj. lia. }
  destruct (diag_loop _ (range1 n) (init_inf n) (square_init_inf n) Hall) as [_ Hg].
  intros a. unfold init_diag. rewrite !Hg, !get_init_inf.
  split; (case_decide as H; [|reflexivity]); exfalso; destruct H as [He Hin];
    apply (zero_outside n); apply list_elem_of_In; congruence.
Qed.

Lemma unused0_edges n edges :
  forall d d', square (Z.to_nat (n + 1)) d -> unused0 d ->
    Forall (fun e => ~ touches n 0 e) edges ->
    add_edges d edges = Ok d' -> unused0 d'.
Proof.
  induction edges as [|[[u v] w] edges IH]; intros d d' Hsq Hun Hno Hrun;
    cbn [add_edges] in Hrun.
  - inversion Hrun; subst. assumption.
  - rewrite (add_edge_spec _ d u v w Hsq) in Hrun.
    pose proof (Forall_inv Hno) as Hn. unfold touches in Hn. simpl in Hn.
    destruct (py_index (Z.to_nat (n + 1)) u) as [a|] eqn:Hu; [|discriminate].
    destruct (py_index (Z.to_nat (n + 1)) v) as [b|] eqn:Hv; [|discriminate].
    cbn [bind] in Hrun.
    apply (IH (put_edge d a b w) d'); try assumption.
    + apply square_put_edge. assumption.
    + intros c.
      rewrite !(get_put_edge _ d a b w _ _ Hsq
                  (py_index_lt _ _ _ Hu) (py_index_lt _ _ _ Hv)).
      destruct (Hun c) as [H1 H2].
      split; (case_decide as H; [|assumption]); exfalso;
        destruct H as [H|H]; inversion H; subst; tauto.
    + exact (Forall_inv_tail Hno).
Qed.

End UnusedFacts.

Import UnusedFacts.

(** X8: when no edge endpoint resolves to index 0, row 0 and column 0
    of the matrix returned by [floyd_warshall] hold only [math.inf]:
    the matrix is 1-indexed. *)
Theorem floyd_warshall_row0_unused n edges d :
  Forall (fun e => ~ touches n 0 e) edges ->
  floyd_warshall n edges = Ok d -> unused0 d.
Proof.
  intros Hno Hrun. unfold floyd_warshall in Hrun.
  destruct (add_edges _ edges) as [d0|] eqn:Hd0; [|discriminate].
  cbn [bind] in Hrun. inversion Hrun; subst d.
  pose proof (unused0_edges n edges _ d0 (inv_square _ _ (init_inv n))
                (unused0_init n) Hno Hd0) as H0.
  intros a.
  rewrite !phases_outside by (pose proof (zero_outside n); tauto).
  apply H0.
Qed.

Lemma floyd_warshall_row0_unused_witness :
  exists d, floyd_warshall 2 [(1, 2, 5)]%Z = Ok d /\ unused0 d.
Proof.
  destruct (floyd_warshall 2 [(1, 2, 5)]%Z) as [d|] eqn:Hd;
    [|vm_compute in Hd; discriminate].
  exists d. split; [reflexivity|].
  apply (floyd_warshall_row0_unused 2 [(1, 2, 5)]%Z d); [|exact Hd].
  repeat constructor. vm_compute. intros [H|H]; discriminate.
Defined.

(* ================================================================== *)
(** ** Further properties of the bundle assembler *)

Module BundleFacts.

Lemma unreachable_among_depot d dep i vs l :
  unreachable_among d dep (i :: vs) = Ok l ->
  exists a, py_index (length d) dep = Some a.
Proof.
  cbn [unreachable_among]. unfold getitem at 1.
  destruct (py_index (length d) dep) as [a|]; [eauto|discriminate].
Qed.

(** What a returned bundle tells about the run. *)
Lemma build_inversion p b :
  build_carp_instance p = Ok b ->
  py_int (n_vertices (meta p)) = Ok (b_n_vertices b) /\
  py_int (depot (meta p)) = Ok (b_depot b) /\
  py_int (capacity (meta p)) = Ok (b_capacity b) /\
  floyd_warshall (b_n_vertices b) (graph_edges (required_edges p)) = Ok (dist b) /\
  unreachable_among (dist b) (b_depot b) (range1 (b_n_vertices b)) = Ok [].
Proof.
  unfold build_carp_instance. intros Hrun.
  destruct (py_int (n_vertices (meta p))) as [n|]; cbn [bind] in Hrun; [|discriminate].
  destruct (py_int (depot (meta p))) as [dep|]; cbn [bind] in Hrun; [|discriminate].
  destruct (py_int (capacity (meta p))) as [cap|]; cbn [bind] in Hrun; [|discriminate].
  destruct (floyd_warshall n _) as [d|] eqn:Hd; cbn [bind] in Hrun; [|discriminate].
  destruct (unreachable_among d dep _) as [[|x l]|] eqn:Hu; cbn [bind] in Hrun;
    try discriminate.
  inversion Hrun; subst b. cbn. auto.
Qed.

Lemma bundle_depot_row p b :
  build_carp_instance p = Ok b -> (1 <= b_n_vertices b)%Z ->
  exists a, py_index (Z.to_nat (b_n_vertices b + 1)) (b_depot b) = Some a /\
            forall i, i ∈ range1 (b_n_vertices b) -> is_inf (get (dist b) a i) = false.
Proof.
  intros Hrun Hn.
  destruct (build_inversion p b Hrun) as (_ & _ & _ & Hfw & Hun).
  pose proof (floyd_warshall_square _ _ _ Hfw) as Hsq.
  assert (Hne : exists i vs, range1 (b_n_vertices b) = i :: vs).
  { unfold range1. destruct (Z.to_nat (b_n_vertices b)) eqn:E; [lia|].
    simpl. eauto. }
  destruct Hne as (i0 & vs & Hr).
  pose proof Hun as Hun'. rewrite Hr in Hun'.
  destruct (unreachable_among_depot _ _ _ _ _ Hun') as [a Ha].
  destruct Hsq as [Hlen Hrows]. rewrite Hlen in Ha.
  exists a. split; [exact Ha|].
  rewrite (unreachable_among_spec _ _ _ a _ (conj Hlen Hrows) Ha) in Hun.
  - inversion Hun as [Hf]. intros i Hi.
    destruct (is_inf (get (dist b) a i)) eqn:E; [|reflexivity].
    assert (Hin : In i (List.filter (fun i => is_inf (get (dist b) a i))
                          (range1 (b_n_vertices b)))).
    { apply filter_In. split; [apply list_elem_of_In; assumption|exact E]. }
    rewrite Hf in Hin. destruct Hin.
  - apply Forall_forall. intros i Hi. apply range1_bounds in Hi. lia.
Qed.


End BundleFacts.

Import BundleFacts.

(** X9: in every bundle that [build_carp_instance] returns, the three
    integers are those of the headers, the matrix is square of side
    [n_vertices + 1], and (when there is a vertex) the depot indexes a
    row in which every vertex of [1..n_vertices] is at finite
    distance. *)
Theorem bundle_depot_reaches_all p b :
  build_carp_instance p = Ok b ->
  py_int (n_vertices (meta p)) = Ok (b_n_vertices b) /\
  py_int (depot (meta p)) = Ok (b_depot b) /\
  py_int (capacity (meta p)) = Ok (b_capacity b) /\
  square (Z.to_nat (b_n_vertices b + 1)) (dist b) /\
  ((1 <= b_n_vertices b)%Z ->
   exists a, py_index (Z.to_nat (b_n_vertices b + 1)) (b_depot b) = Some a /\
             forall i, i ∈ range1 (b_n_vertices b) ->
                       is_inf (get (dist b) a i) = false).
Proof.
  intros Hrun.
  destruct (build_inversion p b Hrun) as (Hn & Hd & Hc & Hfw & _).
  split; [exact Hn|]. split; [exact Hd|]. split; [exact Hc|]. split.
  - apply (floyd_warshall_square _ _ _ Hfw).
  - apply (bundle_depot_row p b Hrun).
Qed.

Lemma bundle_depot_reaches_all_witness :
  exists b, build_carp_instance (parse_gdb_dat parallel_text) = Ok b /\
            b_n_vertices b = 2%Z /\
            exists a, py_index 3 (b_depot b) = Some a /\
                      is_inf (get (dist b) a 2) = false.
Proof.
  destruct (build_carp_instance (parse_gdb_dat parallel_text)) as [b|] eqn:Hb;
    [|vm_compute in Hb; discriminate].
  exists b. split; [reflexivity|].
  assert (Hn : b_n_vertices b = 2%Z).
  { vm_compute in Hb. inversion Hb; subst b. reflexivity. }
  split; [exact Hn|].
  destruct (bundle_depot_reaches_all _ b Hb) as (_ & _ & _ & _ & H).
  rewrite Hn in H. destruct H as (a & Ha & Hall); [lia|].
  exists a. split; [exact Ha|]. apply Hall. unfold range1. simpl. repeat constructor.
Defined.





(* ================================================================== *)
(** ** Further properties of the guardrail *)

Module ReportFacts.

Lemma coherent_add_issue r s i : s <> PASS -> coherent (add_issue r s i).
Proof.
  intros Hs. unfold coherent, add_issue. simpl. split; [congruence|].
  intros H. destruct (Issues r); discriminate H.
Qed.

Lemma sample_loop_result self rng g :
  forall todo it r r',
    sample_loop self rng g todo it r = Ok r' ->
    r' = r \/ exists a b c, r' = add_issue r FAIL (TriangleViolation a b c).
Proof.
  induction todo as [|todo IH]; intros it r r' Hrun; cbn [sample_loop] in Hrun.
  - inversion Hrun. auto.
  - destruct (length (nodes g) <? 3)%nat; [discriminate|].
    destruct (rng it (nodes g)) as [[a b] c].
    destruct (dist_row g a) as [ra|]; cbn [bind] in Hrun; [|discriminate].
    destruct (dist_row g b) as [rb|]; cbn [bind] in Hrun; [|discriminate].
    destruct (Qltb _ _).
    + inversion Hrun. eauto.
    + eapply IH. eassumption.
Qed.

(** The report before the sampling loop, and what the loop returns. *)
Lemma validate_inversion self rng req nonreq r :
  validate_instance self rng req nonreq = Ok r ->
  exists sc max_q,
    is_strongly_connected (build_graph (req ++ nonreq)) = Ok sc /\
    np_max (map col2 req) = Ok max_q /\
    let r3 := check_capacity self max_q
                (check_costs (req ++ nonreq)
                   (check_connectivity sc {| Status := PASS; Issues := [] |})) in
    r = r3 \/ exists a b c, r = add_issue r3 FAIL (TriangleViolation a b c).
Proof.
  unfold validate_instance. intros Hrun.
  destruct (is_strongly_connected _) as [sc|]; cbn [bind] in Hrun; [|discriminate].
  destruct (np_max _) as [mq|]; cbn [bind] in Hrun; [|discriminate].
  exists sc, mq. split; [reflexivity|]. split; [reflexivity|].
  cbv zeta. eapply sample_loop_result. eassumption.
Qed.


Lemma Qltb_true x y : (x < y)%Q -> Qltb x y = true.
Proof.
  unfold Qltb. intros H. apply negb_true_iff.
  destruct (Qle_bool y x) eqn:E; [|reflexivity].
  apply Qle_bool_iff in E. exfalso. apply (Qlt_not_le _ _ H E).
Qed.

End ReportFacts.

Import ReportFacts.

(** X12: in every report that [validate_instance] returns, the status
    is PASS exactly when the list of issues is empty. *)
Theorem pass_iff_no_issue self rng req nonreq r :
  validate_instance self rng req nonreq = Ok r ->
  (Status r = PASS <-> Issues r = []).
Proof.
  intros Hrun.
  destruct (validate_inversion self rng req nonreq r Hrun)
    as (sc & mq & _ & _ & Hr).
  cbv zeta in Hr.
  assert (H3 : coherent (check_capacity self mq
                 (check_costs (req ++ nonreq)
                    (check_connectivity sc {| Status := PASS; Issues := [] |})))).
  { unfold check_capacity, check_costs, check_connectivity.
    destruct (Qltb (capQ self) mq); [apply coherent_add_issue; discriminate|].
    destruct (existsb _ (req ++ nonreq)); [apply coherent_add_issue; discriminate|].
    destruct sc; [|apply coherent_add_issue; discriminate].
    unfold coherent. simpl. tauto. }
  destruct Hr as [->|(a & b & c & ->)]; [exact H3|].
  apply coherent_add_issue. discriminate.
Qed.

Lemma pass_iff_no_issue_witness :
  exists r, validate_instance guard10 first_three cycle_req [] = Ok r /\
            (Status r = PASS <-> Issues r = []).
Proof.
  destruct (validate_instance guard10 first_three cycle_req []) as [r|] eqn:Hr;
    [|vm_compute in Hr; discriminate].
  exists r. split; [reflexivity|].
  apply (pass_iff_no_issue guard10 first_three cycle_req [] r Hr).
Defined.



(** X14: when the largest required demand exceeds the capacity, every
    report that [validate_instance] returns has status FAIL and names
    that demand and the capacity among its issues. *)
Theorem over_capacity_reports_fail self rng req nonreq r max_q :
  validate_instance self rng req nonreq = Ok r ->
  np_max (map col2 req) = Ok max_q ->
  (capQ self < max_q)%Q ->
  Status r = FAIL /\ In (Infeasible max_q (capQ self)) (Issues r).
Proof.
  intros Hrun Hmax Hover.
  destruct (validate_inversion self rng req nonreq r Hrun)
    as (sc & mq & _ & Hmax' & Hr).
  cbv zeta in Hr. rewrite Hmax in Hmax'. inversion Hmax'; subst mq.
  unfold check_capacity in Hr. rewrite (Qltb_true _ _ Hover) in Hr.
  destruct Hr as [->|(a & b & c & ->)]; simpl.
  - split; [reflexivity|]. apply in_or_app. right. left. reflexivity.
  - split; [reflexivity|]. apply in_or_app. left. apply in_or_app. right.
    left. reflexivity.
Qed.

Lemma over_capacity_reports_fail_witness :
  exists r, validate_instance guard10 first_three heavy_req [] = Ok r /\
            Status r = FAIL /\ In (Infeasible 11%Q 10%Q) (Issues r).
Proof.
  destruct (validate_instance guard10 first_three heavy_req []) as [r|] eqn:Hr;
    [|vm_compute in Hr; discriminate].
  exists r. split; [reflexivity|].
  apply (over_capacity_reports_fail guard10 first_three heavy_req [] r 11%Q Hr).
  - vm_compute. reflexivity.
  - vm_compute. reflexivity.
Defined.

(* ================================================================== *)
(** ** Properties of the reader of the solvers' output *)

Module BaselineFacts.

Import Baselines.

Lemma lazy_then_some {A} (m : str -> option A) s g r :
  lazy_then m s = Some (g, r) -> exists rest, s = g ++ rest /\ m rest = Some r.
Proof.
  revert g. induction s as [|c s IH]; intros g; cbn [lazy_then].
  - destruct (m []) as [x|] eqn:Hm; [|discriminate].
    intros H. inversion H; subst. exists []. auto.
  - destruct (m (c :: s)) as [x|] eqn:Hm.
    + intros H. inversion H; subst. exists (c :: s). auto.
    + destruct (lazy_then m s) as [[g' r']|]; [|discriminate].
      intros H. inversion H; subst. destruct (IH g' eq_refl) as (rest & -> & Hr).
      exists rest. auto.
Qed.

Lemma span_forallb f s a b : span f s = (a, b) -> forallb f a = true.
Proof.
  revert a b. induction s as [|c s IH]; intros a b; simpl.
  - intros H. inversion H. reflexivity.
  - destruct (f c) eqn:Hc.
    + destruct (span f s) as [a' b'] eqn:Hs. intros H. inversion H; subst.
      simpl. rewrite Hc. apply (IH a' _ eq_refl).
    + intros H. inversion H. reflexivity.
Qed.

Lemma tail_at_time s t :
  tail_at s = Some t -> t <> [] /\ forallb is_timechar t = true.
Proof.
  unfold tail_at. destruct (sep_at s) as [r|]; [|discriminate].
  destruct (span is_timechar (lstrip r)) as [t' rest] eqn:Hspan.
  destruct t' as [|c t']; [discriminate|].
  destruct (lstrip rest); [|discriminate].
  intros H. inversion H; subst. split; [discriminate|].
  eapply span_forallb. eassumption.
Qed.

Lemma LINE_RE_time line g1 g2 g3 :
  LINE_RE_match line = Some (g1, (g2, g3)) ->
  g3 <> [] /\ forallb is_timechar g3 = true.
Proof.
  unfold LINE_RE_match. intros H.
  apply lazy_then_some in H as (rest & _ & H).
  destruct (sep_at rest) as [r1|]; [|discriminate].
  apply lazy_then_some in H as (rest2 & _ & H).
  apply (tail_at_time rest2). assumption.
Qed.

Lemma timechar_not_space c : is_timechar c = true -> is_space c = false.
Proof. destruct c as [[] [] [] [] [] [] [] []]; vm_compute; congruence. Qed.

Lemma time_trimmed t : forallb is_timechar t = true -> trimmed t.
Proof.
  intros H. unfold trimmed. split.
  - destruct t as [|c t]; [exact I|]. simpl in H. apply andb_prop in H as [H _].
    apply timechar_not_space. exact H.
  - assert (Hr : forallb is_timechar (rev t) = true).
    { apply forallb_forall. intros c Hc. apply in_rev in Hc.
      rewrite forallb_forall in H. apply H. exact Hc. }
    destruct (rev t) as [|c r]; [exact I|]. simpl in Hr.
    apply andb_prop in Hr as [Hr _]. apply timechar_not_space. exact Hr.
Qed.

Lemma out_set_ok out f val :
  Forall entry_ok out -> entry_ok (f, val) -> Forall entry_ok (out_set out f val).
Proof.
  intros Hout Hnew. induction out as [|[k x] out IH]; cbn [out_set].
  - constructor; [assumption|constructor].
  - pose proof (Forall_inv Hout) as Hk. pose proof (Forall_inv_tail Hout) as Ht.
    destruct (str_eqb k f).
    + constructor; [|assumption].
      unfold entry_ok in *. simpl in *. tauto.
    + constructor; [assumption|]. apply IH. assumption.
Qed.

Lemma output_step_ok out line :
  Forall entry_ok out -> Forall entry_ok (output_step out line).
Proof.
  intros Hout. unfold output_step.
  destruct (LINE_RE_match (strip line)) as [[g1 [g2 g3]]|] eqn:Hm; [|assumption].
  destruct (LINE_RE_time _ _ _ _ Hm) as [Hne Htime].
  apply out_set_ok; [assumption|].
  unfold entry_ok. cbn [fst snd result_ time_].
  rewrite (trimmed_strip g3 (time_trimmed g3 Htime)).
  repeat split; try apply strip_trimmed; assumption.
Qed.

Lemma sep_at_occurs s r : sep_at s = Some r -> occurs (lit ":::") s.
Proof.
  unfold sep_at, lstrip. intros H.
  destruct (startswith (drop_while is_space s) (lit ":::")) eqn:Hsw; [|discriminate].
  apply startswith_app in Hsw as [rest Hrest].
  destruct (drop_while_suffix is_space s) as [pre Hpre].
  exists pre, rest. rewrite Hpre at 1. rewrite Hrest. reflexivity.
Qed.

Lemma LINE_RE_occurs line m : LINE_RE_match line = Some m -> occurs (lit ":::") line.
Proof.
  unfold LINE_RE_match. destruct m as [g1 m]. intros H.
  apply lazy_then_some in H as (rest & -> & H).
  destruct (sep_at rest) as [r1|] eqn:Hsep; [|discriminate].
  destruct (sep_at_occurs _ _ Hsep) as (pre & post & ->).
  exists (g1 ++ pre), post. rewrite <- app_assoc. reflexivity.
Qed.

Lemma occurs_strip tok s : occurs tok (strip s) -> occurs tok s.
Proof.
  unfold strip, rstrip, lstrip. intros (pre & post & H).
  destruct (drop_while_suffix is_space s) as [p1 H1].
  destruct (drop_while_suffix is_space (rev (drop_while is_space s))) as [p2 H2].
  apply (f_equal (@rev ascii)) in H2. rewrite rev_involutive, rev_app_distr in H2.
  rewrite H in H2. exists (p1 ++ pre), (post ++ rev p2).
  rewrite H1 at 1. rewrite H2. rewrite <- !app_assoc. reflexivity.
Qed.

End BaselineFacts.

Import Baselines BaselineFacts.

(** X15: in the mapping that [parse_outputs] returns, every file name
    and every result carries no white space at its ends, and every time
    is a non-empty string of digits and dots. *)
Theorem parse_outputs_entries stdout :
  Forall entry_ok (parse_outputs stdout).
Proof.
  unfold parse_outputs.
  assert (H : forall lines out, Forall entry_ok out ->
                Forall entry_ok (foldl output_step out lines)).
  { induction lines as [|l lines IH]; intros out Hout; cbn [foldl]; [assumption|].
    apply IH. apply output_step_ok. assumption. }
  apply H. constructor.
Qed.

(** X16: a line in which [:::] does not occur is skipped; a solver
    output without any such line gives the empty mapping. *)
Theorem parse_outputs_skips_plain_lines stdout :
  Forall (fun line => ~ occurs (lit ":::") line) (splitlines stdout) ->
  parse_outputs stdout = [].
Proof.
  unfold parse_outputs. generalize (splitlines stdout). intros lines Hall.
  induction lines as [|l lines IH]; cbn [foldl]; [reflexivity|].
  assert (Hskip : output_step [] l = []).
  { unfold output_step.
    destruct (LINE_RE_match (strip l)) as [m|] eqn:Hm; [|reflexivity].
    exfalso. apply (Forall_inv Hall). apply occurs_strip.
    eapply LINE_RE_occurs. eassumption. }
  rewrite Hskip. apply IH. exact (Forall_inv_tail Hall).
Qed.

Lemma parse_outputs_skips_plain_lines_witness :
  parse_outputs (lit "loading") = [].
Proof.
  apply (parse_outputs_skips_plain_lines (lit "loading")).
  vm_compute. repeat constructor. intros (pre & post & Heq).
  repeat (destruct pre as [|? pre]; [discriminate Heq|];
          injection Heq as <- Heq);
    destruct pre; discriminate Heq.
Defined.

Module ClosedFacts.

Lemma step_outside_list st raw :
  in_req_list st = false -> is_section_start (clean raw) = false ->
  in_req_list (step st raw) = false /\
  s_required_edges (step st raw) = s_required_edges st.
Proof.
  intros Hin Hm. unfold step. destruct (clean raw) as [|c line]; [auto|].
  rewrite Hm, Hin. unfold header_step.
  destruct (HEADER_RE_match (c :: line)) as [[k x]|]; auto.
Qed.

End ClosedFacts.

Import ClosedFacts.

(** X17: outside the edge list (before the marker, or after a header
    line has closed the list) the loop emits nothing: lines that hold
    no section marker leave the required edges as they are, edge lines
    included. *)
Theorem edges_only_inside_list st lines :
  in_req_list st = false ->
  Forall (fun raw => is_section_start (clean raw) = false) lines ->
  s_required_edges (foldl step st lines) = s_required_edges st.
Proof.
  revert st. induction lines as [|raw lines IH]; intros st Hin Hall; cbn [foldl];
    [reflexivity|].
  destruct (step_outside_list st raw Hin (Forall_inv Hall)) as [Hin' He].
  rewrite (IH (step st raw) Hin' (Forall_inv_tail Hall)). exact He.
Qed.

Lemma edges_only_inside_list_witness :
  map cost (required_edges (parse_gdb_dat closed_text)) = [5%Z] /\
  s_required_edges
    (foldl step (foldl step scan0 (firstn 4 (splitlines closed_text)))
       (skipn 4 (splitlines closed_text))) =
  s_required_edges (foldl step scan0 (firstn 4 (splitlines closed_text))).
Proof.
  split; [vm_compute; reflexivity|].
  apply (edges_only_inside_list
           (foldl step scan0 (firstn 4 (splitlines closed_text)))
           (skipn 4 (splitlines closed_text))).
  - vm_compute. reflexivity.
  - vm_compute. repeat constructor.
Defined.

(** X18: whatever its status, a returned report lists every failed
    check: the connectivity issue is present exactly when the graph is
    not strongly connected, the cost issue exactly when some arc has a
    cost at most 0, and an infeasibility issue exactly when the largest
    required demand exceeds the capacity. *)
Theorem issues_record_every_check self rng req nonreq r sc max_q :
  validate_instance self rng req nonreq = Ok r ->
  is_strongly_connected (build_graph (req ++ nonreq)) = Ok sc ->
  np_max (map col2 req) = Ok max_q ->
  (In NotStronglyConnected (Issues r) <-> sc = false) /\
  (In NonPositiveCost (Issues r) <->
     exists row, In row (req ++ nonreq) /\ (col5 row <= 0)%Q) /\
  ((exists a b, In (Infeasible a b) (Issues r)) <-> (capQ self < max_q)%Q).
Proof.
  intros Hrun Hsc Hmax.
  destruct (validate_inversion self rng req nonreq r Hrun)
    as (sc' & mq & Hsc' & Hmax' & Hr).
  rewrite Hsc in Hsc'. inversion Hsc'; subst sc'.
  rewrite Hmax in Hmax'. inversion Hmax'; subst mq.
  cbv zeta in Hr.
  assert (Hcost : existsb (fun row => Qle_bool (col5 row) 0) (req ++ nonreq) = true <->
                  exists row, In row (req ++ nonreq) /\ (col5 row <= 0)%Q).
  { rewrite existsb_exists. split; intros (row & Hin & Hle); exists row;
      (split; [exact Hin|]); apply Qle_bool_iff; exact Hle. }
  assert (Hcap : Qltb (capQ self) max_q = true <-> (capQ self < max_q)%Q).
  { split; [|apply Qltb_true]. intros H. apply Qnot_le_lt. intros Hle.
    unfold Qltb in H. apply negb_true_iff in H.
    apply Qle_bool_iff in Hle. congruence. }
  rewrite <- Hcost, <- Hcap.
  unfold check_capacity, check_costs, check_connectivity in Hr.
  destruct sc, (existsb _ (req ++ nonreq)), (Qltb (capQ self) max_q);
    destruct Hr as [->|(a & b & c & ->)]; simpl;
    (split; [|split]); split; intros H;
    repeat match goal with
           | H : _ \/ _ |- _ => destruct H
           | H : exists _, _ |- _ => destruct H
           | H : False |- _ => destruct H
           end;
    try discriminate; try reflexivity; eauto 6.
Qed.

Lemma issues_record_every_check_witness :
  exists r, validate_instance guard10 first_three path_req [] = Ok r /\
            Status r = WARNING /\
            In NotStronglyConnected (Issues r) /\ In NonPositiveCost (Issues r).
Proof.
  destruct (validate_instance guard10 first_three path_req []) as [r|] eqn:Hr;
    [|vm_compute in Hr; discriminate].
  exists r. split; [reflexivity|].
  split; [vm_compute in Hr; inversion Hr; reflexivity|].
  destruct (issues_record_every_check guard10 first_three path_req [] r false 1%Q Hr)
    as (H1 & H2 & _); try (vm_compute; reflexivity).
  split; [apply H1; reflexivity|].
  apply H2. exists (mk_arc 1 2 1%Q 0%Q). split; [left; reflexivity|].
  vm_compute. discriminate.
Defined.
